(** * Deck generation queue: the job pipeline of educaia

    A shallow embedding of [src/app/src/queue/deck-generation-queue.ts]
    (class [DeckGenerationQueue]) and of the card generation path of
    [src/app/src/main/controllers/api/decks.controller.ts].

    The class is stateful and talks to three collaborators: the broker
    client (amqplib), the card generator service and the flashcard model.
    Its methods are embedded as computations in a state-and-exception monad
    over a [World]: the fields of the singleton object, the broker's queue of
    published messages and a chronological trace of every external call and
    of every write to the status map.

    What an external call answers is not decided by this code, so each
    method takes an [Oracle]: the outcome of every awaited promise it may
    reach (connect, createChannel, assertQueue, consume, generateCards,
    insert) and the identifiers the generator hands out.  These are the
    failures the error taxonomy of the specification names: the connection
    or the channel cannot be established, the pipeline fails, an insert
    fails; a message body may also fail to parse.

    The channel's synchronous methods (sendToQueue, ack, nack) return no
    promise.  amqplib makes them throw once the channel has closed, so the
    oracle of a call also says whether it has: for [enqueue], by the time
    it publishes; for the handler, while it was suspended at an [await],
    since a channel is open when it delivers a message and the handler
    runs without interruption between two awaits.

    The queue is declared durable and its messages are persistent, so a
    process may start with messages an earlier process published:
    [process_start] takes them as a parameter, and [initial_world] is the
    start on an empty queue.

    Methods run one after the other: a handler runs to its end before the
    next call starts.  The writes of two jobs go to different keys of the
    status map, so their order across jobs does not matter to what is
    proved about one job. *)

From stdpp Require Import gmap strings list relations.

Open Scope string_scope.
Open Scope list_scope.

(** ** Data model *)

Module Queue.

(** [DeckGenerationTone] *)
Inductive DeckGenerationTone := concise | standard | deep.

(** [Omit<DeckGenerationPayload, "jobId">], the argument of [enqueue]. *)
Record DeckGenerationInput := {
  in_deckId : string;
  in_deckName : string;
  in_deckSubject : string;
  in_userId : string;
  in_content : string;
  in_goal : option string;
  in_tone : option DeckGenerationTone;
}.

(** [DeckGenerationPayload] *)
Record DeckGenerationPayload := {
  jobId : string;
  deckId : string;
  deckName : string;
  deckSubject : string;
  userId : string;
  content : string;
  goal : option string;
  tone : option DeckGenerationTone;
}.

(** [{ ...input, jobId }] *)
Definition withJobId (input : DeckGenerationInput) (id : string)
  : DeckGenerationPayload :=
  {| jobId := id;
     deckId := in_deckId input;
     deckName := in_deckName input;
     deckSubject := in_deckSubject input;
     userId := in_userId input;
     content := in_content input;
     goal := in_goal input;
     tone := in_tone input |}.

(** The entries of [cards] in the completed status. *)
Record CardSummary := { cs_question : string; cs_answer : string }.

(** [DeckGenerationStatus], a union tagged by [state]. *)
Inductive DeckGenerationStatus :=
  | Queued (message : string)
  | Processing (message : string)
  | Completed (message : string) (cards : list CardSummary)
  | Failed (message : string).

Inductive StateTag := queued | processing | completed | failed.

Definition state (s : DeckGenerationStatus) : StateTag :=
  match s with
  | Queued _ => queued
  | Processing _ => processing
  | Completed _ _ => completed
  | Failed _ => failed
  end.

(** One suggestion in the generator's answer; [difficulty] and [tags] are
    optional. *)
Record GeneratedCard := {
  question : string;
  answer : string;
  difficulty : option string;
  tags : option (list string);
}.

(** The argument of [cardGenerator.generateCards]. *)
Record GenerateInput := {
  gi_deckName : string;
  gi_deckSubject : string;
  gi_content : string;
  gi_goal : option string;
  gi_tone : option DeckGenerationTone;
}.

(** Values of the [fields] handed to [flashcardModel.insert]. *)
Inductive FieldValue :=
  | VString (s : string)
  | VNumber (n : Z)
  | VNull
  | VStrings (l : list string).

(** [fields]: key/value entries, in the order the code lists them. *)
Definition Fields := list (string * FieldValue).

Fixpoint field (key : string) (fs : Fields) : option FieldValue :=
  match fs with
  | [] => None
  | (k, v) :: rest => if decide (k = key) then Some v else field key rest
  end.

(** A message body.  Buffers are kept in parsed form: a body is either the
    JSON text of a payload, which [JSON.parse] gives back (the cast to
    [DeckGenerationPayload] is trusted, as in the code), or text on which
    [JSON.parse] throws. *)
Inductive Body :=
  | BodyPayload (p : DeckGenerationPayload)
  | BodyInvalid (text : string).

(** [ConsumeMessage]: [content] and [properties.messageId]. *)
Record ConsumeMessage := {
  msg_content : Body;
  msg_messageId : option string;
}.

Inductive Error :=
  | ConnectError
  | CreateChannelError
  | AssertQueueError
  | ConsumeError
  | JsError (message : string)
  | JsonSyntaxError
  | GenerateError
  | InsertError
  | ChannelClosedError.

(** Every external call, in the order it is made.  A call whose promise can
    reject carries its outcome. *)
Inductive Event :=
  | EvConnect (url : string) (ok : bool)
  | EvCreateChannel (ok : bool)
  | EvAssertQueue (queue : string) (durable : bool) (ok : bool)
  | EvSendToQueue (queue : string) (body : Body) (persistent : bool)
  | EvConsume (queue : string) (ok : bool)
  | EvUuid (id : string)
  | EvStatusSet (key : string) (status : DeckGenerationStatus)
  | EvGenerate (input : GenerateInput) (ok : bool)
  | EvInsert (fields : Fields) (ok : bool)
  | EvAck (m : ConsumeMessage)
  | EvNack (m : ConsumeMessage) (allUpTo requeue : bool)
  | EvConsoleError (e : Error)
  (** [sendToQueue], [ack] and [nack] called on a channel that has closed:
      the call throws *)
  | EvSendToQueueThrew (queue : string) (body : Body) (persistent : bool)
  | EvAckThrew (m : ConsumeMessage)
  | EvNackThrew (m : ConsumeMessage) (allUpTo requeue : bool).

(** The answers of the collaborators during one call of a method. *)
Record Oracle := {
  o_connect : bool;
  o_createChannel : bool;
  o_assertQueue : bool;
  o_consume : bool;
  (** the k-th identifier [UuidGeneratorAdapter.generate] returns *)
  o_uuid : nat -> string;
  (** [None]: the promise of [generateCards] rejects *)
  o_generate : GenerateInput -> option (list GeneratedCard);
  (** whether the k-th [flashcardModel.insert] resolves *)
  o_insert : nat -> bool;
  (** whether the channel has closed when the call reaches a synchronous
      method of the channel: before [enqueue] publishes, or while the
      handler is suspended at an [await] *)
  o_channel_closes : bool;
}.

(** The fields of the [DeckGenerationQueue] object, then the world around
    it. *)
Record World := {
  connection : option nat;
  channel : option nat;
  isConsuming : bool;
  statuses : gmap string DeckGenerationStatus;
  broker_queue : list ConsumeMessage;
  trace : list Event;
}.

Definition queueName : string := "deck-generation".
Definition connectionString : string := "amqp://rabbitmq:5672".

(** [new DeckGenerationQueue()] in a process that has done nothing yet.
    The queue is durable and its messages persistent: [leftover] are the
    messages it still holds from an earlier process. *)
Definition process_start (leftover : list ConsumeMessage) : World :=
  {| connection := None; channel := None; isConsuming := false;
     statuses := ∅; broker_queue := leftover; trace := [] |}.

(** The start on an empty queue. *)
Definition initial_world : World := process_start [].

(** ** The monad: state, and exceptions that keep the state *)

Inductive Res (A : Type) :=
  | Ok (a : A)
  | Throw (e : Error).
Arguments Ok {A} a.
Arguments Throw {A} e.

Definition M (A : Type) : Type := World -> Res A * World.

Definition ret {A} (a : A) : M A := fun w => (Ok a, w).

Definition bind {A B} (m : M A) (k : A -> M B) : M B :=
  fun w => match m w with
           | (Ok a, w') => k a w'
           | (Throw e, w') => (Throw e, w')
           end.

Definition throw {A} (e : Error) : M A := fun w => (Throw e, w).

(** [try { m } catch (error) { h error }] *)
Definition try_catch {A} (m : M A) (h : Error -> M A) : M A :=
  fun w => match m w with
           | (Ok a, w') => (Ok a, w')
           | (Throw e, w') => h e w'
           end.

Definition gets {A} (f : World -> A) : M A := fun w => (Ok (f w), w).
Definition modify (f : World -> World) : M unit := fun w => (Ok tt, f w).

Declare Scope queue_scope.
Delimit Scope queue_scope with queue.
Notation "x ← y ; z" := (bind y (fun x => z))
  (at level 20, y at level 100, z at level 200, only parsing) : queue_scope.
Notation "y ;; z" := (bind y (fun _ => z))
  (at level 100, z at level 200, only parsing, right associativity)
  : queue_scope.
Open Scope queue_scope.

(** [try { x = m; k x } catch (error) { h x error }] for a local variable
    [x] that is [null] until the first statement has assigned it. *)
Definition try_assign {A B} (m : M A) (k : A -> M B)
    (h : option A -> Error -> M B) : M B :=
  fun w => match m w with
           | (Ok a, w') => try_catch (k a) (h (Some a)) w'
           | (Throw e, w') => h None e w'
           end.

(** The world after a computation, whatever it returned. *)
Definition exec {A} (m : M A) (w : World) : World := snd (m w).

(** ** Primitive effects *)

Definition emit (e : Event) (w : World) : World :=
  {| connection := connection w; channel := channel w;
     isConsuming := isConsuming w; statuses := statuses w;
     broker_queue := broker_queue w; trace := trace w ++ [e] |}.

Definition set_connection (c : nat) (w : World) : World :=
  {| connection := Some c; channel := channel w;
     isConsuming := isConsuming w; statuses := statuses w;
     broker_queue := broker_queue w; trace := trace w |}.

Definition set_channel (c : nat) (w : World) : World :=
  {| connection := connection w; channel := Some c;
     isConsuming := isConsuming w; statuses := statuses w;
     broker_queue := broker_queue w; trace := trace w |}.

Definition set_isConsuming (b : bool) (w : World) : World :=
  {| connection := connection w; channel := channel w;
     isConsuming := b; statuses := statuses w;
     broker_queue := broker_queue w; trace := trace w |}.

Definition put_status (key : string) (s : DeckGenerationStatus) (w : World)
  : World :=
  {| connection := connection w; channel := channel w;
     isConsuming := isConsuming w; statuses := <[key := s]> (statuses w);
     broker_queue := broker_queue w; trace := trace w |}.

Definition publish (m : ConsumeMessage) (w : World) : World :=
  {| connection := connection w; channel := channel w;
     isConsuming := isConsuming w; statuses := statuses w;
     broker_queue := broker_queue w ++ [m]; trace := trace w |}.

(** An awaited call: logged with its outcome, rejects with [e] on failure. *)
Definition awaited (ev : bool -> Event) (ok : bool) (e : Error) : M unit :=
  fun w => (if ok then Ok tt else Throw e, emit (ev ok) w).

(** [amqplib.connect(this.connectionString)]; the handle of the new
    connection is the position of the call in the trace. *)
Definition amqplib_connect (o : Oracle) : M nat :=
  n ← gets (fun w => length (trace w));
  awaited (EvConnect connectionString) (o_connect o) ConnectError;;
  ret n.

(** [this.connection.createChannel()] *)
Definition createChannel (o : Oracle) : M nat :=
  n ← gets (fun w => length (trace w));
  awaited EvCreateChannel (o_createChannel o) CreateChannelError;;
  ret n.

(** [this.channel.assertQueue(queue, { durable })] *)
Definition assertQueue (o : Oracle) (queue : string) (durable : bool)
  : M unit :=
  awaited (EvAssertQueue queue durable) (o_assertQueue o) AssertQueueError.

(** [this.channel.sendToQueue(queue, body, { persistent })]: the broker
    appends the message to the queue; the publisher sets no messageId.  The
    call is synchronous; it throws when the channel has closed, which
    [closed] says. *)
Definition sendToQueue (closed : bool) (queue : string) (body : Body)
    (persistent : bool) : M unit :=
  if closed
  then modify (emit (EvSendToQueueThrew queue body persistent));;
       throw ChannelClosedError
  else modify (fun w =>
         publish {| msg_content := body; msg_messageId := None |}
           (emit (EvSendToQueue queue body persistent) w)).

(** [this.channel.consume(queue, callback)] *)
Definition channel_consume (o : Oracle) (queue : string) : M unit :=
  awaited (EvConsume queue) (o_consume o) ConsumeError.

(** [this.channel.ack(message)], likewise. *)
Definition channel_ack (closed : bool) (m : ConsumeMessage) : M unit :=
  if closed
  then modify (emit (EvAckThrew m));; throw ChannelClosedError
  else modify (emit (EvAck m)).

(** [this.channel.nack(message, allUpTo, requeue)], likewise. *)
Definition channel_nack (closed : bool) (m : ConsumeMessage)
    (allUpTo requeue : bool) : M unit :=
  if closed
  then modify (emit (EvNackThrew m allUpTo requeue));; throw ChannelClosedError
  else modify (emit (EvNack m allUpTo requeue)).

(** [UuidGeneratorAdapter.generate()], the k-th call of this method. *)
Definition uuid_generate (o : Oracle) (k : nat) : M string :=
  modify (emit (EvUuid (o_uuid o k)));;
  ret (o_uuid o k).

(** [this.statuses.set(key, status)] *)
Definition statuses_set (key : string) (s : DeckGenerationStatus) : M unit :=
  modify (fun w => put_status key s (emit (EvStatusSet key s) w)).

(** [JSON.parse(message.content.toString())] *)
Definition JSON_parse (b : Body) : M DeckGenerationPayload :=
  match b with
  | BodyPayload p => ret p
  | BodyInvalid _ => throw JsonSyntaxError
  end.

(** [this.cardGenerator.generateCards(input)] *)
Definition generateCards (o : Oracle) (input : GenerateInput)
  : M (list GeneratedCard) :=
  match o_generate o input with
  | Some cards => modify (emit (EvGenerate input true));; ret cards
  | None => modify (emit (EvGenerate input false));; throw GenerateError
  end.

(** [flashcardModel.insert({ fields })], the k-th call of this method. *)
Definition flashcard_insert (o : Oracle) (k : nat) (fields : Fields)
  : M unit :=
  awaited (EvInsert fields) (o_insert o k) InsertError.

Definition console_error (e : Error) : M unit :=
  modify (emit (EvConsoleError e)).

(** ** The methods of [DeckGenerationQueue] *)

(** [init] *)
Definition init (o : Oracle) : M unit :=
  ch ← gets channel;
  match ch with
  | Some _ => ret tt
  | None =>
      conn ← amqplib_connect o;
      modify (set_connection conn);;
      c ← createChannel o;
      modify (set_channel c);;
      assertQueue o queueName true
  end.

(** [getStatus] *)
Definition getStatus (id : string) (w : World) : option DeckGenerationStatus :=
  statuses w !! id.

Definition queued_message : string :=
  "Conteúdo enviado para a fila de geração.".
Definition processing_message : string :=
  "Processando geração na fila RabbitMQ...".
Definition completed_message : string :=
  "Cartas geradas e adicionadas ao baralho.".
Definition failed_message : string :=
  "Falha ao processar a geração de flashcards.".

(** [startConsumer]; the callback it registers is [onMessage] below. *)
Definition startConsumer (o : Oracle) : M unit :=
  ch ← gets channel;
  match ch with None => init o | Some _ => ret tt end;;
  ch ← gets channel;
  consuming ← gets isConsuming;
  match ch with
  | None => ret tt
  | Some _ =>
      if consuming then ret tt
      else
        modify (set_isConsuming true);;
        channel_consume o queueName
  end.

(** [enqueue] *)
Definition enqueue (o : Oracle) (input : DeckGenerationInput) : M string :=
  ch ← gets channel;
  match ch with None => init o | Some _ => ret tt end;;
  ch ← gets channel;
  match ch with
  | None => throw (JsError "RabbitMQ channel is not available")
  | Some _ => ret tt
  end;;
  id ← uuid_generate o 0;
  let payload := withJobId input id in
  statuses_set id (Queued queued_message);;
  sendToQueue (o_channel_closes o) queueName (BodyPayload payload) true;;
  consuming ← gets isConsuming;
  (if consuming then ret tt else startConsumer o);;
  ret id.

(** The [fields] of one insert in [handleMessage]. *)
Definition cardFields (id : string) (suggestion : GeneratedCard)
    (payload : DeckGenerationPayload) : Fields :=
  [ ("id", VString id);
    ("question", VString (question suggestion));
    ("answer", VString (answer suggestion));
    ("user_id", VString (userId payload));
    ("deck_id", VString (deckId payload));
    ("status", VString "new");
    ("review_count", VNumber 0);
    ("last_review_date", VNull);
    ("difficulty", VString (default "medium" (difficulty suggestion)));
    ("tags", VStrings (default [] (tags suggestion))) ].

(** [for (const suggestion of cards.cards) { await flashcardModel.insert(..) }],
    from the k-th iteration on. *)
Fixpoint insertCards (o : Oracle) (payload : DeckGenerationPayload)
    (k : nat) (cards : list GeneratedCard) : M unit :=
  match cards with
  | [] => ret tt
  | suggestion :: rest =>
      id ← uuid_generate o k;
      flashcard_insert o k (cardFields id suggestion payload);;
      insertCards o payload (S k) rest
  end.

(** [cards.cards.map((card) => ({ question, answer }))] *)
Definition summary (card : GeneratedCard) : CardSummary :=
  {| cs_question := question card; cs_answer := answer card |}.

Definition generateInput (payload : DeckGenerationPayload) : GenerateInput :=
  {| gi_deckName := deckName payload;
     gi_deckSubject := deckSubject payload;
     gi_content := content payload;
     gi_goal := goal payload;
     gi_tone := tone payload |}.

(** The [try] block of [handleMessage] after [payload] has been assigned.
    [ack] comes after the awaited pipeline call, so the channel may have
    closed by then. *)
Definition processPayload (o : Oracle) (message : ConsumeMessage)
    (payload : DeckGenerationPayload) : M unit :=
  statuses_set (jobId payload) (Processing processing_message);;
  cards ← generateCards o (generateInput payload);
  insertCards o payload 0 cards;;
  statuses_set (jobId payload)
    (Completed completed_message (map summary cards));;
  channel_ack (o_channel_closes o) message.

(** The [catch] block of [handleMessage]; [payload] is the local variable,
    still [null] when [JSON.parse] threw:
    [payload?.jobId ?? message.properties.messageId ?? "unknown"]. *)
Definition failureKey (payload : option DeckGenerationPayload)
    (message : ConsumeMessage) : string :=
  match payload with
  | Some p => jobId p
  | None => default "unknown" (msg_messageId message)
  end.

(** Whether the channel has closed when the [catch] block runs.
    [JSON.parse] is synchronous and the statements after it lead to the
    first [await] without a throw, so the handler has been suspended since
    the delivery exactly when [payload] is no longer [null]. *)
Definition closed_in_catch (o : Oracle)
    (payload : option DeckGenerationPayload) : bool :=
  match payload with
  | Some _ => o_channel_closes o
  | None => false
  end.

Definition onFailure (o : Oracle) (message : ConsumeMessage)
    (payload : option DeckGenerationPayload) (error : Error) : M unit :=
  console_error error;;
  statuses_set (failureKey payload message) (Failed failed_message);;
  channel_nack (closed_in_catch o payload) message false false.

(** [handleMessage].  The assignment to [payload] is the first statement of
    the [try] block, so the [catch] block sees [null] exactly when
    [JSON.parse] threw, and the parsed payload otherwise. *)
Definition handleMessage (o : Oracle) (message : ConsumeMessage) : M unit :=
  ch ← gets channel;
  match ch with
  | None => ret tt
  | Some _ =>
      try_assign (JSON_parse (msg_content message))
        (processPayload o message)
        (onFailure o message)
  end.

(** The callback given to [channel.consume]; amqplib calls it with [null]
    when the consumer is cancelled. *)
Definition onMessage (o : Oracle) (message : option ConsumeMessage) : M unit :=
  match message with
  | None => ret tt
  | Some m => handleMessage o m
  end.

(** ** Executions: calls on the singleton, one after the other *)

(** A consumer is registered once a [consume] call has resolved. *)
Definition is_subscription (e : Event) : bool :=
  match e with EvConsume _ true => true | _ => false end.

Definition subscribed (w : World) : bool := existsb is_subscription (trace w).

(** The broker hands the i-th pending message over. *)
Definition take_message (i : nat) (w : World) : World :=
  {| connection := connection w; channel := channel w;
     isConsuming := isConsuming w; statuses := statuses w;
     broker_queue := delete i (broker_queue w); trace := trace w |}.

Inductive Call :=
  | CallInit (o : Oracle)
  | CallEnqueue (o : Oracle) (input : DeckGenerationInput)
  | CallStartConsumer (o : Oracle)
  (** the broker delivers the i-th pending message to the callback *)
  | Deliver (o : Oracle) (i : nat)
  (** the broker cancels the consumer: the callback gets [null] *)
  | Cancelled (o : Oracle).

(** A rejected promise is the caller's business; the world goes on. *)
Definition run_call (c : Call) (w : World) : World :=
  match c with
  | CallInit o => exec (init o) w
  | CallEnqueue o input => exec (enqueue o input) w
  | CallStartConsumer o => exec (startConsumer o) w
  | Deliver o i =>
      match broker_queue w !! i with
      | Some m =>
          if subscribed w
          then exec (onMessage o (Some m)) (take_message i w)
          else w
      | None => w
      end
  | Cancelled o => exec (onMessage o None) w
  end.

Definition run_calls (calls : list Call) (w : World) : World :=
  foldl (fun w c => run_call c w) w calls.

End Queue.

(** ** The synchronous path of the decks controller *)

Module Controller.
Import Queue.

(** [generateCardsWithFallback] *)
Definition generateCardsWithFallback (o : Oracle) (input : GenerateInput)
  : M (list GeneratedCard) :=
  result ← generateCards o input;
  if decide (0 < length result) then ret result
  else throw (JsError "Erro ao gerar flashcards.").

(** The [fields] of one insert in [handleGenerateCards]. *)
Definition cardFields (id : string) (suggestion : GeneratedCard)
    (user_id deckId : string) : Fields :=
  [ ("id", VString id);
    ("question", VString (question suggestion));
    ("answer", VString (answer suggestion));
    ("user_id", VString user_id);
    ("deck_id", VString deckId);
    ("status", VString "new");
    ("review_count", VNumber 0);
    ("last_review_date", VNull);
    ("difficulty", VString (default "medium" (difficulty suggestion)));
    ("tags", VStrings (default [] (tags suggestion))) ].

(** [for (const suggestion of cards) { await flashcardModel.insert(..) }] *)
Fixpoint insertCards (o : Oracle) (user_id deckId : string)
    (k : nat) (cards : list GeneratedCard) : M unit :=
  match cards with
  | [] => ret tt
  | suggestion :: rest =>
      id ← uuid_generate o k;
      flashcard_insert o k (cardFields id suggestion user_id deckId);;
      insertCards o user_id deckId (S k) rest
  end.

(** The [try] block of [handleGenerateCards] up to the response: generate,
    then insert every suggestion. *)
Definition generateAndInsert (o : Oracle) (input : GenerateInput)
    (user_id deckId : string) : M (list GeneratedCard) :=
  cards ← generateCardsWithFallback o input;
  insertCards o user_id deckId 0 cards;;
  ret cards.

End Controller.

(** ** Sample data *)

Module Samples.
Import Queue.

Definition sample_input : DeckGenerationInput :=
  {| in_deckId := "deck-1"; in_deckName := "Biology";
     in_deckSubject := "Plants"; in_userId := "user-1";
     in_content := "Photosynthesis converts light into chemical energy.";
     in_goal := None; in_tone := Some standard |}.

Definition sample_payload : DeckGenerationPayload :=
  withJobId sample_input "job-1".

Definition sample_message : ConsumeMessage :=
  {| msg_content := BodyPayload sample_payload; msg_messageId := None |}.

Definition garbled_message : ConsumeMessage :=
  {| msg_content := BodyInvalid "not json"; msg_messageId := None |}.

Definition plain_card : GeneratedCard :=
  {| question := "What does photosynthesis convert?";
     answer := "Light into chemical energy";
     difficulty := None; tags := None |}.

Definition sample_cards : list GeneratedCard :=
  [ plain_card;
    {| question := "Where does it happen?";
       answer := "In chloroplasts";
       difficulty := Some "hard"; tags := Some ["cells"] |} ].

(** Identifiers "id", "id'", "id''", ... *)
Fixpoint numbered (base : string) (k : nat) : string :=
  match k with
  | 0 => base
  | S k' => numbered base k' +:+ "'"
  end.

(** Every promise resolves; the pipeline answers [sample_cards]. *)
Definition sample_oracle : Oracle :=
  {| o_connect := true; o_createChannel := true; o_assertQueue := true;
     o_consume := true; o_uuid := numbered "card";
     o_generate := fun _ => Some sample_cards;
     o_insert := fun _ => true;
     o_channel_closes := false |}.

(** The pipeline answers the empty list. *)
Definition empty_oracle : Oracle :=
  {| o_connect := true; o_createChannel := true; o_assertQueue := true;
     o_consume := true; o_uuid := numbered "card";
     o_generate := fun _ => Some [];
     o_insert := fun _ => true;
     o_channel_closes := false |}.

(** A process whose channel is open and whose consumer is registered. *)
Definition ready_world : World := exec (startConsumer sample_oracle) initial_world.

(** The second insert rejects. *)
Definition failing_insert_oracle : Oracle :=
  {| o_connect := true; o_createChannel := true; o_assertQueue := true;
     o_consume := true; o_uuid := numbered "card";
     o_generate := fun _ => Some sample_cards;
     o_insert := fun k => bool_decide (k = 0);
     o_channel_closes := false |}.

(** Every promise resolves, and the channel closes during the call. *)
Definition closing_oracle : Oracle :=
  {| o_connect := true; o_createChannel := true; o_assertQueue := true;
     o_consume := true; o_uuid := numbered "card";
     o_generate := fun _ => Some sample_cards;
     o_insert := fun _ => true;
     o_channel_closes := true |}.

(** The pipeline rejects, and the channel closes while the handler awaits
    it. *)
Definition closing_failing_oracle : Oracle :=
  {| o_connect := true; o_createChannel := true; o_assertQueue := true;
     o_consume := true; o_uuid := numbered "card";
     o_generate := fun _ => None;
     o_insert := fun _ => true;
     o_channel_closes := true |}.

(** The broker cannot be reached. *)
Definition unreachable_broker : Oracle :=
  {| o_connect := false; o_createChannel := true; o_assertQueue := true;
     o_consume := true; o_uuid := numbered "job";
     o_generate := fun _ => None;
     o_insert := fun _ => true;
     o_channel_closes := false |}.

(** The broker accepts the connection and refuses the channel. *)
Definition channel_refused : Oracle :=
  {| o_connect := true; o_createChannel := false; o_assertQueue := true;
     o_consume := true; o_uuid := numbered "job";
     o_generate := fun _ => None;
     o_insert := fun _ => true;
     o_channel_closes := false |}.

(** The oracle of a submission: the generator answers "job-1". *)
Definition submit_oracle : Oracle :=
  {| o_connect := true; o_createChannel := true; o_assertQueue := true;
     o_consume := true; o_uuid := numbered "job-1";
     o_generate := fun _ => None;
     o_insert := fun _ => true;
     o_channel_closes := false |}.

(** The oracle of a later submission: the generator answers "job-2". *)
Definition second_submit_oracle : Oracle :=
  {| o_connect := true; o_createChannel := true; o_assertQueue := true;
     o_consume := true; o_uuid := numbered "job-2";
     o_generate := fun _ => None;
     o_insert := fun _ => true;
     o_channel_closes := false |}.

End Samples.

Import Queue Samples.

(** * Observations

    What the proofs look at: the status writes in a trace, the calls a
    method makes as a function of the oracle, counts of set-up calls, and
    the invariants of a run. *)

(** ** Traces *)

(** The states written under one key, oldest first. *)
Definition status_log (key : string) (tr : list Event) : list StateTag :=
  omap (fun e => match e with
                 | EvStatusSet k s =>
                     if decide (k = key) then Some (state s) else None
                 | _ => None
                 end) tr.

(** What a recorded call of the handler does to the world. *)
Definition apply_event (e : Event) (w : World) : World :=
  match e with
  | EvStatusSet k s => put_status k s (emit e w)
  | _ => emit e w
  end.

Definition apply_events (evs : list Event) (w : World) : World :=
  foldl (fun w e => apply_event e w) w evs.

(** ** The calls of the handler *)

(** The calls of the insert loop from its k-th iteration on. *)
Fixpoint insert_events (o : Oracle) (payload : DeckGenerationPayload)
    (k : nat) (cards : list GeneratedCard) : list Event :=
  match cards with
  | [] => []
  | c :: rest =>
      EvUuid (o_uuid o k)
      :: EvInsert (cardFields (o_uuid o k) c payload) (o_insert o k)
      :: (if o_insert o k then insert_events o payload (S k) rest else [])
  end.

(** Whether the loop runs to its end. *)
Fixpoint inserts_succeed (o : Oracle) (k : nat) (cards : list GeneratedCard)
  : bool :=
  match cards with
  | [] => true
  | _ :: rest => o_insert o k && inserts_succeed o (S k) rest
  end.

(** The calls of the [catch] block. *)
Definition failure_events (o : Oracle) (m : ConsumeMessage)
    (payload : option DeckGenerationPayload) (e : Error) : list Event :=
  [ EvConsoleError e;
    EvStatusSet (failureKey payload m) (Failed failed_message);
    if closed_in_catch o payload
    then EvNackThrew m false false
    else EvNack m false false ].

(** The calls from the write of the completed status on. *)
Definition completion_events (o : Oracle) (m : ConsumeMessage)
    (p : DeckGenerationPayload) (cards : list GeneratedCard) : list Event :=
  EvStatusSet (jobId p) (Completed completed_message (map summary cards))
  :: (if o_channel_closes o
      then EvAckThrew m :: failure_events o m (Some p) ChannelClosedError
      else [EvAck m]).

(** The calls of one run of [handleMessage] on an open channel. *)
Definition handler_events (o : Oracle) (m : ConsumeMessage) : list Event :=
  match msg_content m with
  | BodyInvalid _ => failure_events o m None JsonSyntaxError
  | BodyPayload p =>
      EvStatusSet (jobId p) (Processing processing_message)
      :: match o_generate o (generateInput p) with
         | None =>
             EvGenerate (generateInput p) false
             :: failure_events o m (Some p) GenerateError
         | Some cards =>
             EvGenerate (generateInput p) true
             :: insert_events o p 0 cards
             ++ (if inserts_succeed o 0 cards
                 then completion_events o m p cards
                 else failure_events o m (Some p) InsertError)
         end
  end.

(** What one run of [handleMessage] on an open channel returns: it throws
    exactly when [nack] does. *)
Definition handler_result (o : Oracle) (m : ConsumeMessage) : Res unit :=
  match msg_content m with
  | BodyInvalid _ => Ok tt
  | BodyPayload _ =>
      if o_channel_closes o then Throw ChannelClosedError else Ok tt
  end.

(** The rows of a loop in which every insert resolves, in list order. *)
Definition insert_calls (o : Oracle) (p : DeckGenerationPayload)
    (cards : list GeneratedCard) : list Event :=
  concat (imap (fun k c => [ EvUuid (o_uuid o k);
                             EvInsert (cardFields (o_uuid o k) c p) true ])
               cards).

(** The value of the local variable [payload] once the first statement of
    the [try] block has run. *)
Definition payload_of (m : ConsumeMessage) : option DeckGenerationPayload :=
  match msg_content m with
  | BodyPayload p => Some p
  | BodyInvalid _ => None
  end.

(** Processing a message raises an error: at the parse, in the pipeline, or
    at an insert. *)
Inductive raises (o : Oracle) (m : ConsumeMessage) : Error -> Prop :=
  | raises_parse text :
      msg_content m = BodyInvalid text ->
      raises o m JsonSyntaxError
  | raises_pipeline p :
      msg_content m = BodyPayload p ->
      o_generate o (generateInput p) = None ->
      raises o m GenerateError
  | raises_persistence p cards k :
      msg_content m = BodyPayload p ->
      o_generate o (generateInput p) = Some cards ->
      k < length cards ->
      o_insert o k = false ->
      raises o m InsertError.

Definition is_ack (e : Event) : bool :=
  match e with EvAck _ => true | _ => false end.

Definition is_completion (e : Event) : bool :=
  match e with EvStatusSet _ (Completed _ _) => true | _ => false end.

(** ** The calls of the set-up *)

Ltac run_method :=
  unfold enqueue, startConsumer, init, amqplib_connect, createChannel,
    assertQueue, channel_consume, awaited, uuid_generate, statuses_set,
    sendToQueue, bind, gets, modify, ret, throw;
  simpl.

Definition is_publish (e : Event) : bool :=
  match e with EvSendToQueue _ _ _ => true | _ => false end.

(** How many events of a kind a trace has. *)
Definition count (f : Event -> bool) (tr : list Event) : nat :=
  length (List.filter f tr).

(** A connection is opened when [connect] resolves, a channel when
    [createChannel] resolves. *)
Definition is_connection (e : Event) : bool :=
  match e with EvConnect _ true => true | _ => false end.

Definition is_channel (e : Event) : bool :=
  match e with EvCreateChannel true => true | _ => false end.

Definition is_failed_channel (e : Event) : bool :=
  match e with EvCreateChannel false => true | _ => false end.

Definition connections (w : World) : nat := count is_connection (trace w).
Definition channels (w : World) : nat := count is_channel (trace w).
Definition failed_channels (w : World) : nat :=
  count is_failed_channel (trace w).
Definition subscriptions (w : World) : nat := count is_subscription (trace w).

(** The calls of the set-up, as opposed to those of the job pipeline. *)
Definition is_setup (e : Event) : bool :=
  match e with
  | EvConnect _ _ | EvCreateChannel _ | EvAssertQueue _ _ _ | EvConsume _ _ =>
      true
  | _ => false
  end.

Definition has_channel (w : World) : bool :=
  match channel w with Some _ => true | None => false end.

(** What the set-up keeps true in every world it can produce. *)
Record setup_ok (w : World) : Prop := {
  no_channel_yet : has_channel w = false -> channels w = 0;
  one_channel : channels w <= 1;
  no_consumer_yet : isConsuming w = false -> subscriptions w = 0;
  one_subscription : subscriptions w <= 1;
  connections_split : connections w = channels w + failed_channels w;
}.

(** The calls of an [init] that starts without a channel. *)
Definition init_events (o : Oracle) : list Event :=
  EvConnect connectionString (o_connect o)
  :: (if o_connect o
      then EvCreateChannel (o_createChannel o)
           :: (if o_createChannel o
               then [EvAssertQueue queueName true (o_assertQueue o)]
               else [])
      else []).

(** The calls of [if (!this.channel) { await this.init(); }]. *)
Definition setup_events (o : Oracle) (w : World) : list Event :=
  match channel w with
  | Some _ => []
  | None => init_events o
  end.

(** Whether that statement returns normally. *)
Definition channel_ready (o : Oracle) (w : World) : bool :=
  match channel w with
  | Some _ => true
  | None => o_connect o && o_createChannel o && o_assertQueue o
  end.

(** The message the broker holds after [sendToQueue]. *)
Definition published (input : DeckGenerationInput) (id : string)
  : ConsumeMessage :=
  {| msg_content := BodyPayload (withJobId input id); msg_messageId := None |}.

(** The calls of [enqueue]. *)
Definition enqueue_events (o : Oracle) (input : DeckGenerationInput)
    (w : World) : list Event :=
  setup_events o w
  ++ (if channel_ready o w
      then [ EvUuid (o_uuid o 0);
             EvStatusSet (o_uuid o 0) (Queued queued_message) ]
           ++ (if o_channel_closes o
               then [ EvSendToQueueThrew queueName
                        (BodyPayload (withJobId input (o_uuid o 0))) true ]
               else EvSendToQueue queueName
                      (BodyPayload (withJobId input (o_uuid o 0))) true
                    :: (if isConsuming w then []
                        else [EvConsume queueName (o_consume o)]))
      else []).

(** Whether [enqueue] publishes: the channel is there and still open. *)
Definition publishes (o : Oracle) (w : World) : bool :=
  channel_ready o w && negb (o_channel_closes o).

(** The calls of [startConsumer]. *)
Definition consumer_events (o : Oracle) (w : World) : list Event :=
  setup_events o w
  ++ (if channel_ready o w && negb (isConsuming w)
      then [EvConsume queueName (o_consume o)]
      else []).

Ltac method_cases w o :=
  destruct w as [cn ch ic st q tr];
  destruct o as [b1 b2 b3 b4 u g ins cl];
  unfold exec, enqueue_events, consumer_events, setup_events, init_events,
    channel_ready;
  simpl;
  destruct ch, ic, b1, b2, b3, b4, cl; simpl;
  rewrite <- ?app_assoc, ?app_nil_r; simpl;
  repeat split; eauto.

Ltac field_cases w o :=
  destruct w as [cn ch ic st q tr];
  destruct o as [b1 b2 b3 b4 u g ins cl];
  unfold exec, has_channel, channel_ready, publishes; simpl;
  destruct ch, ic, b1, b2, b3, b4, cl; split; reflexivity.

Ltac count_cases w o :=
  destruct w as [cn ch ic st q tr];
  destruct o as [b1 b2 b3 b4 u g ins cl];
  unfold enqueue_events, consumer_events, setup_events, init_events,
    has_channel, channel_ready, publishes;
  simpl;
  destruct ch, ic, b1, b2, b3, b4, cl; vm_compute;
  try reflexivity; try discriminate; auto.

(** ** Runs *)

(** The key under which the handler reports on a message. *)
Definition message_key (m : ConsumeMessage) : string :=
  failureKey (payload_of m) m.

(** The states a job may have been given so far. *)
Definition lifecycle (l : list StateTag) : Prop :=
  l `prefix_of` [queued; processing; completed]
  \/ l `prefix_of` [queued; processing; failed].

(** The states between two calls, when no handler is half-way; the last
    one is the log of a job whose ack threw. *)
Definition at_rest (l : list StateTag) : Prop :=
  l = [] \/ l = [queued]
  \/ l = [queued; processing; completed]
  \/ l = [queued; processing; failed]
  \/ l = [queued; processing; completed; failed].

(** The states the handler writes after processing for the job of a
    payload. *)
Definition verdicts (o : Oracle) (p : DeckGenerationPayload) : list StateTag :=
  match o_generate o (generateInput p) with
  | Some cards =>
      if inserts_succeed o 0 cards
      then completed :: (if o_channel_closes o then [failed] else [])
      else [failed]
  | None => [failed]
  end.

(** The identifier generator keeps its contract during a run: the job
    identifier of every [enqueue] has not been handed out before. *)
Fixpoint unique_ids (calls : list Call) (w : World) : Prop :=
  match calls with
  | [] => True
  | c :: rest =>
      match c with
      | CallEnqueue o _ => ~ In (EvUuid (o_uuid o 0)) (trace w)
      | _ => True
      end
      /\ unique_ids rest (run_call c w)
  end.

(** A job whose message is still in the broker's queue. *)
Definition pending (id : string) (w : World) : Prop :=
  exists m p, In m (broker_queue w)
              /\ msg_content m = BodyPayload p /\ jobId p = id.

(** What every run keeps true of the jobs. *)
Record jobs_ok (w : World) : Prop := {
  logs_at_rest : forall j, at_rest (status_log j (trace w));
  pending_queued : forall m, m ∈ broker_queue w ->
    exists p, msg_content m = BodyPayload p
              /\ status_log (jobId p) (trace w) = [queued]
              /\ statuses w !! jobId p = Some (Queued queued_message);
  pending_distinct : NoDup (message_key <$> broker_queue w);
  keys_generated : forall j,
    status_log j (trace w) <> [] -> In (EvUuid j) (trace w);
}.

(** * The generate route of the decks controller *)

Module Decks.
Import Queue.

(** A value of type [unknown], as far as [normalizeTone] looks at it. *)
Inductive JsValue :=
  | JsUndefined
  | JsNull
  | JsBoolean (b : bool)
  | JsNumber (n : Z)
  | JsString (s : string).

(** The string of a tone literal. *)
Definition tone_string (t : DeckGenerationTone) : string :=
  match t with
  | concise => "concise"
  | standard => "standard"
  | deep => "deep"
  end.

(** [normalizeTone]: [value === "concise" || value === "deep"] gives the
    value back, anything else gives "standard". *)
Definition normalizeTone (value : JsValue) : DeckGenerationTone :=
  match value with
  | JsString s =>
      if decide (s = "concise") then concise
      else if decide (s = "deep") then deep
      else standard
  | _ => standard
  end.

(** The row [ensureDeckBelongsToUser] resolves to: [id], [name] and the
    nullable [subject]. *)
Record Deck := {
  deck_id : string;
  deck_name : string;
  deck_subject : option string;
}.

(** The output of the schema of [handleGenerateCards]: trimmed content, a
    goal that is undefined when blank, an optional tone. *)
Record Validated := {
  v_content : string;
  v_goal : option string;
  v_tone : option DeckGenerationTone;
}.

(** The value of [validated.tone] as [normalizeTone] receives it. *)
Definition tone_value (t : option DeckGenerationTone) : JsValue :=
  match t with
  | Some t => JsString (tone_string t)
  | None => JsUndefined
  end.

(** What is sent: the status and the body.  The markup of the preview is
    built by a helper of the base controller from the deck id and the
    cards; it is kept as that pair. *)
Inductive ResponseBody :=
  | Alert (html : string)
  | CardPreview (deckId : string) (cards : list GeneratedCard).

Record Response := { status : nat; body : ResponseBody }.

(** The double quote of the markup. *)
Definition dq : string := String (Ascii.ascii_of_nat 34) EmptyString.

(** [<div class="alert alert-danger" role="alert">text</div>] *)
Definition danger_alert (text : string) : string :=
  "<div class=" +:+ dq +:+ "alert alert-danger" +:+ dq +:+ " role=" +:+ dq
  +:+ "alert" +:+ dq +:+ ">" +:+ text +:+ "</div>".

Definition not_found_alert : string := danger_alert "Baralho não encontrado.".

Definition failure_alert : string :=
  danger_alert
    "Não foi possível gerar sugestões no momento. Tente novamente mais tarde.".

(** [ensureDeckBelongsToUser(deckId, user.id)]: [deckModel.findOne], whose
    answer (a rejection, [null] or a row) comes with the call. *)
Definition ensureDeckBelongsToUser (found : Res (option Deck))
  : M (option Deck) :=
  match found with
  | Ok deck => ret deck
  | Throw e => throw e
  end.

(** The input of the pipeline in [handleGenerateCards]. *)
Definition pipelineInput (deck : Deck) (validated : Validated)
  : GenerateInput :=
  {| gi_deckName := deck_name deck;
     gi_deckSubject := default "Geral" (deck_subject deck);
     gi_content := v_content validated;
     gi_goal := v_goal validated;
     gi_tone := Some (normalizeTone (tone_value (v_tone validated))) |}.

(** [handleGenerateCards] from the point where the user is authenticated
    and the body validated (both are helpers of the base controller that
    answer and return on failure): the [try] block and its [catch].  Every
    path sends one response and returns; the response is the result. *)
Definition handleGenerateCards (o : Oracle) (found : Res (option Deck))
    (user_id deckId : string) (validated : Validated) : M Response :=
  try_catch
    (deck ← ensureDeckBelongsToUser found;
     match deck with
     | None => ret {| status := 404; body := Alert not_found_alert |}
     | Some deck =>
         cards ← Controller.generateCardsWithFallback o
                   (pipelineInput deck validated);
         Controller.insertCards o user_id deckId 0 cards;;
         ret {| status := 201; body := CardPreview (deck_id deck) cards |}
     end)
    (fun error =>
       console_error error;;
       ret {| status := 500; body := Alert failure_alert |}).

End Decks.

(** ** More sample data *)

Module MoreSamples.
Import Queue Samples.

(** The broker refuses the subscription. *)
Definition consume_refused : Oracle :=
  {| o_connect := true; o_createChannel := true; o_assertQueue := true;
     o_consume := false; o_uuid := numbered "job-1";
     o_generate := fun _ => None;
     o_insert := fun _ => true;
     o_channel_closes := false |}.

(** The broker refuses the declaration of the queue. *)
Definition declaration_refused : Oracle :=
  {| o_connect := true; o_createChannel := true; o_assertQueue := false;
     o_consume := true; o_uuid := numbered "job-1";
     o_generate := fun _ => None;
     o_insert := fun _ => true;
     o_channel_closes := false |}.

Definition sample_deck : Decks.Deck :=
  {| Decks.deck_id := "deck-1"; Decks.deck_name := "Biology";
     Decks.deck_subject := None |}.

Definition sample_validated : Decks.Validated :=
  {| Decks.v_content := "Photosynthesis converts light into chemical energy.";
     Decks.v_goal := None; Decks.v_tone := None |}.

End MoreSamples.

Import MoreSamples.

(** * Further observations *)

(** An ack or a nack settles a message. *)
Definition is_settlement (e : Event) : bool :=
  match e with EvAck _ | EvNack _ _ _ => true | _ => false end.

(** The row of an insert that resolved. *)
Definition inserted (e : Event) : option Fields :=
  match e with EvInsert fields true => Some fields | _ => None end.

Definition is_insert (e : Event) : bool :=
  match e with EvInsert _ _ => true | _ => false end.

(** A queue is declared when [assertQueue] resolves. *)
Definition is_declaration (e : Event) : bool :=
  match e with EvAssertQueue _ _ true => true | _ => false end.

(** The calls only the handler makes. *)
Definition is_worker (e : Event) : bool :=
  match e with
  | EvGenerate _ _ | EvInsert _ _ | EvAck _ | EvNack _ _ _
  | EvAckThrew _ | EvNackThrew _ _ _
  | EvConsoleError _ => true
  | EvStatusSet _ (Queued _) => false
  | EvStatusSet _ _ => true
  | _ => false
  end.

(** The consumer's flag is set and no subscription exists: the state a
    rejected [consume] leaves. *)
Definition stuck (w : World) : Prop :=
  isConsuming w = true /\ subscribed w = false.

(** The messages this process has published, oldest first. *)
Definition published_messages (tr : list Event) : list ConsumeMessage :=
  omap (fun e => match e with
                 | EvSendToQueue _ body _ =>
                     Some {| msg_content := body; msg_messageId := None |}
                 | _ => None
                 end) tr.

(** The messages this process has acked or nacked. *)
Definition settled_messages (tr : list Event) : list ConsumeMessage :=
  omap (fun e => match e with
                 | EvAck m | EvNack m _ _ => Some m
                 | _ => None
                 end) tr.

(** The messages whose handler ended in a [nack] that threw: delivered,
    and neither acked nor nacked. *)
Definition abandoned_messages (tr : list Event) : list ConsumeMessage :=
  omap (fun e => match e with
                 | EvNackThrew m _ _ => Some m
                 | _ => None
                 end) tr.

(** Every message the queue held at the start or this process published is
    in one place: pending, settled or abandoned. *)
Record delivery_ok (leftover : list ConsumeMessage) (w : World) : Prop := {
  subscribed_has_channel : subscribed w = true -> has_channel w = true;
  messages_accounted :
    leftover ++ published_messages (trace w)
    ≡ₚ broker_queue w ++ settled_messages (trace w)
       ++ abandoned_messages (trace w);
}.

(** The identifiers [enqueue] has drawn for jobs, oldest first: each is
    recorded as queued as soon as it is drawn, and nothing else writes a
    queued status. *)
Definition submitted_ids (tr : list Event) : list string :=
  omap (fun e => match e with
                 | EvStatusSet k (Queued _) => Some k
                 | _ => None
                 end) tr.

(** The keys of the status map, and of the messages this process has
    published, are identifiers of submitted jobs or keys of messages the
    queue held at the start. *)
Record known_keys (leftover : list ConsumeMessage) (w : World) : Prop := {
  status_known : forall j, statuses w !! j <> None ->
    j ∈ (message_key <$> leftover) ++ submitted_ids (trace w);
  published_known : forall m, m ∈ published_messages (trace w) ->
    message_key m ∈ submitted_ids (trace w);
}.

(** Whether the handler reaches the ack at the end of its [try] block. *)
Definition completes (o : Oracle) (m : ConsumeMessage) : bool :=
  match msg_content m with
  | BodyPayload p =>
      match o_generate o (generateInput p) with
      | Some cards => inserts_succeed o 0 cards
      | None => false
      end
  | BodyInvalid _ => false
  end.

(** Whether the channel has closed when the handler settles the message:
    never for a body that does not parse, which is settled before any
    [await]. *)
Definition closed_at_settlement (o : Oracle) (m : ConsumeMessage) : bool :=
  closed_in_catch o (payload_of m).

(** The last call of the handler. *)
Definition last_call (o : Oracle) (m : ConsumeMessage) : Event :=
  if closed_at_settlement o m then EvNackThrew m false false
  else if completes o m then EvAck m
  else EvNack m false false.

(** The question and the answer of a card, as the completed status reports
    them. *)
Definition question_and_answer (cards : list GeneratedCard)
  : list CardSummary :=
  map (fun card => {| cs_question := question card;
                      cs_answer := answer card |}) cards.

(** The status under the message's key when the handler is done. *)
Definition final_status (o : Oracle) (m : ConsumeMessage)
  : DeckGenerationStatus :=
  match msg_content m with
  | BodyPayload p =>
      match o_generate o (generateInput p) with
      | Some cards =>
          if inserts_succeed o 0 cards && negb (o_channel_closes o)
          then Completed completed_message (question_and_answer cards)
          else Failed failed_message
      | None => Failed failed_message
      end
  | BodyInvalid _ => Failed failed_message
  end.

(** The key of the status map a call may write to. *)
Definition call_key (c : Call) (w : World) : option string :=
  match c with
  | CallEnqueue o _ => Some (o_uuid o 0)
  | Deliver _ i => message_key <$> broker_queue w !! i
  | _ => None
  end.

(** The calls of one call of a run. *)
Definition call_events (c : Call) (w : World) : list Event :=
  match c with
  | CallInit o => setup_events o w
  | CallEnqueue o input => enqueue_events o input w
  | CallStartConsumer o => consumer_events o w
  | Deliver o i =>
      match broker_queue w !! i with
      | Some m =>
          if subscribed w && has_channel w then handler_events o m else []
      | None => []
      end
  | Cancelled _ => []
  end.

(** The status map holds, under every key, the last status written
    there. *)
Definition synced (w : World) : Prop :=
  forall j, state <$> (statuses w !! j) = last (status_log j (trace w)).

(** * Properties *)

(** ** Replaying events *)

Lemma apply_events_app evs1 evs2 w :
  apply_events (evs1 ++ evs2) w = apply_events evs2 (apply_events evs1 w).
Proof. apply foldl_app. Qed.

Lemma apply_events_cons e evs w :
  apply_events (e :: evs) w = apply_events evs (apply_event e w).
Proof. reflexivity. Qed.

Lemma apply_event_frame e w :
  connection (apply_event e w) = connection w
  /\ channel (apply_event e w) = channel w
  /\ isConsuming (apply_event e w) = isConsuming w
  /\ broker_queue (apply_event e w) = broker_queue w
  /\ trace (apply_event e w) = trace w ++ [e].
Proof. destruct e; simpl; auto. Qed.

Lemma apply_events_frame evs : forall w,
  connection (apply_events evs w) = connection w
  /\ channel (apply_events evs w) = channel w
  /\ isConsuming (apply_events evs w) = isConsuming w
  /\ broker_queue (apply_events evs w) = broker_queue w
  /\ trace (apply_events evs w) = trace w ++ evs.
Proof.
  induction evs as [|e evs IH]; intros w.
  - simpl. rewrite app_nil_r. auto.
  - rewrite apply_events_cons.
    destruct (IH (apply_event e w)) as (H1 & H2 & H3 & H4 & H5).
    destruct (apply_event_frame e w) as (E1 & E2 & E3 & E4 & E5).
    rewrite H1, H2, H3, H4, H5, E1, E2, E3, E4, E5.
    rewrite <- app_assoc. auto.
Qed.

Lemma trace_apply_events evs w :
  trace (apply_events evs w) = trace w ++ evs.
Proof. apply apply_events_frame. Qed.

(** ** The insert loop and the handler, call by call *)

Lemma insertCards_spec o p cards : forall k w,
  insertCards o p k cards w =
    (if inserts_succeed o k cards then Ok tt else Throw InsertError,
     apply_events (insert_events o p k cards) w).
Proof.
  induction cards as [|c rest IH]; intros k w; [reflexivity|].
  simpl. unfold bind at 1. unfold uuid_generate, bind, modify, ret.
  unfold flashcard_insert, awaited.
  destruct (o_insert o k); simpl.
  - rewrite IH. reflexivity.
  - reflexivity.
Qed.

Lemma handleMessage_spec o m w ch :
  channel w = Some ch ->
  handleMessage o m w
  = (handler_result o m, apply_events (handler_events o m) w).
Proof.
  intros Hch. unfold handleMessage, bind, gets. rewrite Hch.
  unfold try_assign, handler_events, handler_result, completion_events.
  destruct (msg_content m) as [p|t]; simpl.
  - unfold try_catch, processPayload, onFailure, failure_events,
      closed_in_catch, channel_ack, channel_nack, console_error, bind,
      statuses_set, modify, throw, generateCards.
    destruct (o_generate o (generateInput p)) as [cards|]; simpl.
    + unfold bind, modify, ret, throw. rewrite insertCards_spec.
      rewrite apply_events_app.
      destruct (inserts_succeed o 0 cards), (o_channel_closes o); reflexivity.
    + destruct (o_channel_closes o); reflexivity.
  - reflexivity.
Qed.

(** While the channel stays open the handler returns normally. *)
Lemma handleMessage_open o m w ch :
  channel w = Some ch ->
  closed_at_settlement o m = false ->
  handleMessage o m w = (Ok tt, apply_events (handler_events o m) w).
Proof.
  intros Hch Hopen. rewrite (handleMessage_spec o m w ch Hch). f_equal.
  unfold handler_result. unfold closed_at_settlement, payload_of in Hopen.
  destruct (msg_content m); [|reflexivity].
  simpl in Hopen. rewrite Hopen. reflexivity.
Qed.

Lemma statuses_insert_events o p cards : forall k w,
  statuses (apply_events (insert_events o p k cards) w) = statuses w.
Proof.
  induction cards as [|c rest IH]; intros k w; [reflexivity|].
  simpl. destruct (o_insert o k); [rewrite IH|]; reflexivity.
Qed.

Lemma inserts_succeed_all o cards : forall k,
  (forall i, i < length cards -> o_insert o (k + i) = true) ->
  inserts_succeed o k cards = true.
Proof.
  induction cards as [|c rest IH]; intros k H; [reflexivity|].
  simpl. rewrite <- (Nat.add_0_r k) at 1. rewrite H by (simpl; lia).
  simpl. apply IH. intros i Hi.
  replace (S k + i) with (k + S i) by lia. apply H. simpl. lia.
Qed.

Lemma inserts_succeed_none o cards : forall k i,
  i < length cards -> o_insert o (k + i) = false ->
  inserts_succeed o k cards = false.
Proof.
  induction cards as [|c rest IH]; intros k i Hi H; [simpl in Hi; lia|].
  simpl. destruct i as [|i].
  - rewrite Nat.add_0_r in H. rewrite H. reflexivity.
  - rewrite (IH (S k) i); [apply andb_false_r| simpl in Hi; lia|].
    replace (S k + i) with (k + S i) by lia. exact H.
Qed.

Lemma insert_events_all o p cards : forall k,
  inserts_succeed o k cards = true ->
  insert_events o p k cards
  = concat (imap (fun i c => [ EvUuid (o_uuid o (k + i));
                               EvInsert (cardFields (o_uuid o (k + i)) c p)
                                 true ]) cards).
Proof.
  induction cards as [|c rest IH]; intros k H; [reflexivity|].
  simpl in H. apply andb_true_iff in H as [Hk Hrest].
  simpl. rewrite Hk, Nat.add_0_r. do 2 f_equal.
  rewrite (IH (S k) Hrest). f_equal. apply imap_ext.
  intros i x _. simpl. replace (S (k + i)) with (k + S i) by lia. reflexivity.
Qed.

(** ** The Worker *)

Lemma handleMessage_returns_at_once o m w :
  channel w = None -> handleMessage o m w = (Ok tt, w).
Proof.
  intros Hch. unfold handleMessage, bind, gets. rewrite Hch. reflexivity.
Qed.

(** C10. Called while [this.channel] is unset, [handleMessage] returns at
    once: the world is the one it started in, so the status map is as it
    was and the trace has no new call (no pipeline call, no insert, no ack
    and no nack). *)
Theorem handleMessage_without_channel o m w :
  channel w = None ->
  handleMessage o m w = (Ok tt, w)
  /\ statuses (exec (handleMessage o m) w) = statuses w
  /\ trace (exec (handleMessage o m) w) = trace w.
Proof.
  intros Hch. unfold exec.
  rewrite (handleMessage_returns_at_once o m w Hch). auto.
Qed.

Lemma handleMessage_without_channel_witness :
  handleMessage sample_oracle sample_message initial_world
    = (Ok tt, initial_world)
  /\ statuses (exec (handleMessage sample_oracle sample_message) initial_world)
     = statuses initial_world
  /\ trace (exec (handleMessage sample_oracle sample_message) initial_world)
     = trace initial_world.
Proof.
  apply (handleMessage_without_channel sample_oracle sample_message
           initial_world).
  reflexivity.
Defined.

(** C8. A message whose body does not parse is recorded as failed under
    its messageId when it has one and under "unknown" otherwise, and is
    rejected with requeue = false; the handler returns normally. *)
Theorem unparsable_message_fails_under_message_key o m w ch text :
  channel w = Some ch ->
  msg_content m = BodyInvalid text ->
  let key := match msg_messageId m with Some id => id | None => "unknown" end in
  exists w',
    handleMessage o m w = (Ok tt, w')
    /\ statuses w' = <[key := Failed failed_message]> (statuses w)
    /\ trace w' = trace w ++ [ EvConsoleError JsonSyntaxError;
                               EvStatusSet key (Failed failed_message);
                               EvNack m false false ].
Proof.
  intros Hch Hbody key. eexists. split.
  - apply (handleMessage_open o m w ch Hch).
    unfold closed_at_settlement, payload_of. rewrite Hbody. reflexivity.
  - unfold handler_events. rewrite Hbody. split.
    + reflexivity.
    + rewrite trace_apply_events. reflexivity.
Qed.

Lemma unparsable_message_fails_under_message_key_witness :
  exists w',
    handleMessage sample_oracle garbled_message ready_world = (Ok tt, w')
    /\ statuses w' = <["unknown" := Failed failed_message]> (statuses ready_world)
    /\ trace w' = trace ready_world
                  ++ [ EvConsoleError JsonSyntaxError;
                       EvStatusSet "unknown" (Failed failed_message);
                       EvNack garbled_message false false ].
Proof.
  apply (unparsable_message_fails_under_message_key sample_oracle
           garbled_message ready_world 1 "not json"); reflexivity.
Defined.

(** C3. When the pipeline answers a non-empty list, every insert
    resolves and the channel is still open when the handler reaches ack,
    the handler inserts one row per card in list order, then records the
    completed status whose cards are, one for one and in the same order,
    the question and the answer of each card of the pipeline's list, then
    acks, and returns normally. *)
Theorem worker_completes_nonempty_job o m w ch p cards :
  channel w = Some ch ->
  msg_content m = BodyPayload p ->
  o_generate o (generateInput p) = Some cards ->
  cards <> [] ->
  (forall k, k < length cards -> o_insert o k = true) ->
  o_channel_closes o = false ->
  let reported :=
    map (fun card => {| cs_question := question card;
                        cs_answer := answer card |}) cards in
  exists w',
    handleMessage o m w = (Ok tt, w')
    /\ trace w' =
         trace w
         ++ [ EvStatusSet (jobId p) (Processing processing_message);
              EvGenerate (generateInput p) true ]
         ++ insert_calls o p cards
         ++ [ EvStatusSet (jobId p) (Completed completed_message reported);
              EvAck m ]
    /\ statuses w' =
         <[jobId p := Completed completed_message reported]> (statuses w)
    /\ length reported = length cards.
Proof.
  intros Hch Hbody Hgen _ Hins Hopen reported.
  assert (inserts_succeed o 0 cards = true) as Hall
    by (apply inserts_succeed_all; intros i Hi; apply Hins, Hi).
  eexists. split.
  { apply (handleMessage_open o m w ch Hch).
    unfold closed_at_settlement, payload_of. rewrite Hbody. exact Hopen. }
  unfold handler_events, completion_events. rewrite Hbody, Hgen, Hall, Hopen.
  split; [|split].
  - rewrite trace_apply_events. rewrite (insert_events_all o p cards 0 Hall).
    reflexivity.
  - rewrite !apply_events_cons, apply_events_app. simpl.
    rewrite statuses_insert_events. simpl. apply insert_insert_eq.
  - apply length_map.
Qed.

Lemma worker_completes_nonempty_job_witness :
  exists w',
    handleMessage sample_oracle sample_message ready_world = (Ok tt, w')
    /\ trace w' =
         trace ready_world
         ++ [ EvStatusSet "job-1" (Processing processing_message);
              EvGenerate (generateInput sample_payload) true ]
         ++ insert_calls sample_oracle sample_payload sample_cards
         ++ [ EvStatusSet "job-1"
                (Completed completed_message
                   [ {| cs_question := "What does photosynthesis convert?";
                        cs_answer := "Light into chemical energy" |};
                     {| cs_question := "Where does it happen?";
                        cs_answer := "In chloroplasts" |} ]);
              EvAck sample_message ]
    /\ statuses w' =
         <["job-1" :=
             Completed completed_message
               [ {| cs_question := "What does photosynthesis convert?";
                    cs_answer := "Light into chemical energy" |};
                 {| cs_question := "Where does it happen?";
                    cs_answer := "In chloroplasts" |} ]]>
           (statuses ready_world)
    /\ length [ {| cs_question := "What does photosynthesis convert?";
                   cs_answer := "Light into chemical energy" |};
                {| cs_question := "Where does it happen?";
                   cs_answer := "In chloroplasts" |} ] = length sample_cards.
Proof.
  apply (worker_completes_nonempty_job sample_oracle sample_message
           ready_world 1 sample_payload sample_cards).
  - reflexivity.
  - reflexivity.
  - reflexivity.
  - discriminate.
  - intros k _. reflexivity.
  - reflexivity.
Defined.

(** C3 without the open channel fails: the pipeline answers two cards and
    both inserts resolve, the channel closes meanwhile, ack throws, the
    catch block overwrites the completed status with the failed one, nack
    throws in turn, and the message is never acked. *)
Lemma ack_on_closed_channel_fails_job :
  o_generate closing_oracle (generateInput sample_payload) = Some sample_cards
  /\ sample_cards <> []
  /\ (forall k, o_insert closing_oracle k = true)
  /\ fst (handleMessage closing_oracle sample_message ready_world)
     = Throw ChannelClosedError
  /\ getStatus "job-1"
       (exec (handleMessage closing_oracle sample_message) ready_world)
     = Some (Failed failed_message)
  /\ count is_ack
       (trace (exec (handleMessage closing_oracle sample_message) ready_world))
     = 0.
Proof.
  split; [reflexivity|]. split; [discriminate|]. split; [reflexivity|].
  vm_compute. repeat split.
Qed.

Lemma insert_events_quiet o p cards : forall k,
  Forall (fun e => is_ack e = false /\ is_completion e = false)
    (insert_events o p k cards).
Proof.
  induction cards as [|c rest IH]; intros k; simpl; [constructor|].
  repeat constructor; simpl; auto.
  destruct (o_insert o k); [apply IH | constructor].
Qed.

(** C5. Whatever raises during processing (the parse, the pipeline or an
    insert), the handler catches it: the last three calls it makes are the
    error log, the write of the failed status and nack(message, false,
    false), the status read back under the key is the failed one, and
    before them it has neither acked nor written a completed status.
    While the channel is open, as it always is after a parse error, the
    nack goes through and the handler returns normally; when the channel
    has closed during the awaited calls, the nack throws and the handler
    rejects with that error. *)
Theorem worker_absorbs_processing_errors o m w ch e :
  channel w = Some ch ->
  raises o m e ->
  let key := failureKey (payload_of m) m in
  exists w' evs result settle,
    handleMessage o m w = (result, w')
    /\ trace w' = trace w ++ evs ++ [ EvConsoleError e;
                                      EvStatusSet key (Failed failed_message);
                                      settle ]
    /\ Forall (fun ev => is_ack ev = false /\ is_completion ev = false) evs
    /\ getStatus key w' = Some (Failed failed_message)
    /\ (e = JsonSyntaxError \/ o_channel_closes o = false ->
        result = Ok tt /\ settle = EvNack m false false)
    /\ (e <> JsonSyntaxError -> o_channel_closes o = true ->
        result = Throw ChannelClosedError
        /\ settle = EvNackThrew m false false).
Proof.
  intros Hch Hr key. subst key.
  rewrite (handleMessage_spec o m w ch Hch).
  unfold handler_events, handler_result, payload_of, failure_events.
  destruct Hr as [text Hb | p Hb Hg | p cards k Hb Hg Hk Hi]; rewrite Hb.
  - eexists. exists [], (Ok tt), (EvNack m false false).
    split; [reflexivity|].
    split; [rewrite trace_apply_events; reflexivity|].
    split; [constructor|].
    split; [unfold getStatus; simpl; apply lookup_insert_eq|].
    split; [auto | intros H; contradiction].
  - rewrite Hg. cbn [closed_in_catch].
    destruct (o_channel_closes o) eqn:Hcl; eexists;
      exists [ EvStatusSet (jobId p) (Processing processing_message);
               EvGenerate (generateInput p) false ];
      do 2 eexists;
      (split; [reflexivity|]);
      (split; [rewrite trace_apply_events; reflexivity|]);
      (split; [repeat constructor|]);
      (split; [unfold getStatus; simpl; apply lookup_insert_eq|]);
      (split; [intros [H | H]; [discriminate | try discriminate; auto]
              | intros _ H; try discriminate; auto]).
  - rewrite Hg.
    rewrite (inserts_succeed_none o cards 0 k Hk Hi). cbn [closed_in_catch].
    destruct (o_channel_closes o) eqn:Hcl; eexists;
      exists ([ EvStatusSet (jobId p) (Processing processing_message);
                EvGenerate (generateInput p) true ]
              ++ insert_events o p 0 cards);
      do 2 eexists;
      (split; [reflexivity|]);
      (split; [rewrite trace_apply_events; reflexivity|]);
      (split; [apply Forall_app; split;
               [repeat constructor | apply insert_events_quiet]|]);
      (split; [unfold getStatus;
               rewrite !apply_events_cons, apply_events_app;
               simpl; apply lookup_insert_eq|]);
      (split; [intros [H | H]; [discriminate | try discriminate; auto]
              | intros _ H; try discriminate; auto]).
Qed.

Lemma worker_absorbs_processing_errors_witness :
  exists w' evs result settle,
    handleMessage failing_insert_oracle sample_message ready_world
    = (result, w')
    /\ trace w' = trace ready_world
                  ++ evs ++ [ EvConsoleError InsertError;
                              EvStatusSet "job-1" (Failed failed_message);
                              settle ]
    /\ Forall (fun ev => is_ack ev = false /\ is_completion ev = false) evs
    /\ getStatus "job-1" w' = Some (Failed failed_message)
    /\ (InsertError = JsonSyntaxError
        \/ o_channel_closes failing_insert_oracle = false ->
        result = Ok tt /\ settle = EvNack sample_message false false)
    /\ (InsertError <> JsonSyntaxError ->
        o_channel_closes failing_insert_oracle = true ->
        result = Throw ChannelClosedError
        /\ settle = EvNackThrew sample_message false false).
Proof.
  apply (worker_absorbs_processing_errors failing_insert_oracle sample_message
           ready_world 1 InsertError).
  - reflexivity.
  - apply (raises_persistence _ _ sample_payload sample_cards 1).
    + reflexivity.
    + reflexivity.
    + simpl. lia.
    + reflexivity.
Defined.

(** C5 without the open channel fails: the pipeline rejects, the channel
    closes meanwhile, the catch block records the failed status, nack
    throws, the handler rejects with that error and the message is neither
    acked nor nacked. *)
Lemma nack_on_closed_channel_propagates :
  raises closing_failing_oracle sample_message GenerateError
  /\ fst (handleMessage closing_failing_oracle sample_message ready_world)
     = Throw ChannelClosedError
  /\ getStatus "job-1"
       (exec (handleMessage closing_failing_oracle sample_message) ready_world)
     = Some (Failed failed_message)
  /\ count (fun e => match e with
                     | EvAck _ | EvNack _ _ _ => true
                     | _ => false
                     end)
       (trace (exec (handleMessage closing_failing_oracle sample_message)
                 ready_world))
     = 0.
Proof.
  split.
  - apply (raises_pipeline _ _ sample_payload); reflexivity.
  - vm_compute. repeat split.
Qed.

Lemma insert_events_rows o p cards fields ok : forall k,
  In (EvInsert fields ok) (insert_events o p k cards) ->
  exists id card, In card cards /\ fields = cardFields id card p.
Proof.
  induction cards as [|c rest IH]; intros k H; simpl in H; [contradiction|].
  destruct H as [H | [H | H]]; [discriminate | |].
  - injection H as <- _. exists (o_uuid o k), c. split; [left|]; reflexivity.
  - destruct (o_insert o k); [|contradiction].
    destruct (IH _ H) as (id & card & Hin & E).
    exists id, card. split; [right|]; assumption.
Qed.

(** C7. Every row the handler hands to the flashcard model comes from a
    card of the pipeline's answer; its difficulty is the card's when the
    card has one and "medium" when not, its tags are the card's when it
    has some and the empty list when not, and its status, review count and
    last review date are "new", 0 and null. *)
Theorem worker_rows_carry_defaults o m w evs fields ok :
  trace (exec (handleMessage o m) w) = trace w ++ evs ->
  In (EvInsert fields ok) evs ->
  exists p cards card,
    msg_content m = BodyPayload p
    /\ o_generate o (generateInput p) = Some cards
    /\ In card cards
    /\ field "question" fields = Some (VString (question card))
    /\ field "answer" fields = Some (VString (answer card))
    /\ field "difficulty" fields
       = Some (VString match difficulty card with
                       | Some d => d
                       | None => "medium"
                       end)
    /\ field "tags" fields
       = Some (VStrings match tags card with
                        | Some ts => ts
                        | None => []
                        end)
    /\ field "status" fields = Some (VString "new")
    /\ field "review_count" fields = Some (VNumber 0)
    /\ field "last_review_date" fields = Some VNull.
Proof.
  intros Htr Hin.
  destruct (channel w) as [ch|] eqn:Hch.
  - unfold exec in Htr. rewrite (handleMessage_spec o m w ch Hch) in Htr.
    simpl in Htr. rewrite trace_apply_events in Htr.
    apply app_inv_head in Htr. subst evs.
    unfold handler_events in Hin.
    assert (forall p e, ~ In (EvInsert fields ok) (failure_events o m p e))
      as Hf.
    { intros p e [H | [H | [H | []]]]; try discriminate.
      destruct (closed_in_catch o p); discriminate. }
    destruct (msg_content m) as [p|t] eqn:Hb; [|exfalso; eapply Hf, Hin].
    destruct Hin as [H | Hin]; [discriminate|].
    destruct (o_generate o (generateInput p)) as [cards|] eqn:Hg.
    + destruct Hin as [H | Hin]; [discriminate|].
      apply in_app_or in Hin as [Hin | Hin].
      * destruct (insert_events_rows _ _ _ _ _ _ Hin) as (id & card & Hc & ->).
        exists p, cards, card. repeat split; assumption.
      * exfalso. destruct (inserts_succeed o 0 cards); [|eapply Hf, Hin].
        unfold completion_events in Hin.
        destruct Hin as [H | Hin]; [discriminate|].
        destruct (o_channel_closes o).
        -- destruct Hin as [H | Hin]; [discriminate | eapply Hf, Hin].
        -- destruct Hin as [H | []]; discriminate.
    + destruct Hin as [H | Hin]; [discriminate|]. exfalso. eapply Hf, Hin.
  - exfalso.
    unfold exec in Htr.
    rewrite (handleMessage_returns_at_once o m w Hch) in Htr. simpl in Htr.
    rewrite <- (app_nil_r (trace w)) in Htr at 1.
    apply app_inv_head in Htr. subst evs. destruct Hin.
Qed.

Lemma worker_rows_carry_defaults_witness :
  exists p cards card,
    msg_content sample_message = BodyPayload p
    /\ o_generate sample_oracle (generateInput p) = Some cards
    /\ In card cards
    /\ field "question" (cardFields "card" plain_card sample_payload)
       = Some (VString (question card))
    /\ field "answer" (cardFields "card" plain_card sample_payload)
       = Some (VString (answer card))
    /\ field "difficulty" (cardFields "card" plain_card sample_payload)
       = Some (VString match difficulty card with
                       | Some d => d
                       | None => "medium"
                       end)
    /\ field "tags" (cardFields "card" plain_card sample_payload)
       = Some (VStrings match tags card with
                        | Some ts => ts
                        | None => []
                        end)
    /\ field "status" (cardFields "card" plain_card sample_payload)
       = Some (VString "new")
    /\ field "review_count" (cardFields "card" plain_card sample_payload)
       = Some (VNumber 0)
    /\ field "last_review_date" (cardFields "card" plain_card sample_payload)
       = Some VNull.
Proof.
  apply (worker_rows_carry_defaults sample_oracle sample_message ready_world
           (handler_events sample_oracle sample_message)
           (cardFields "card" plain_card sample_payload) true).
  - reflexivity.
  - right. right. right. left. reflexivity.
Defined.

(** The controller inserts rows of the same shape. *)
Lemma controller_rows_same_shape id card p :
  Controller.cardFields id card (userId p) (deckId p) = cardFields id card p.
Proof. reflexivity. Qed.

(** On an empty answer the loop has nothing to insert and the handler goes
    on to the completed status and the ack, whatever the job. *)
Lemma worker_completes_on_empty_answer o m w ch p :
  channel w = Some ch ->
  msg_content m = BodyPayload p ->
  o_generate o (generateInput p) = Some [] ->
  o_channel_closes o = false ->
  exists w',
    handleMessage o m w = (Ok tt, w')
    /\ getStatus (jobId p) w' = Some (Completed completed_message [])
    /\ trace w' = trace w
                  ++ [ EvStatusSet (jobId p) (Processing processing_message);
                       EvGenerate (generateInput p) true;
                       EvStatusSet (jobId p) (Completed completed_message []);
                       EvAck m ].
Proof.
  intros Hch Hb Hg Hopen. eexists. split.
  { apply (handleMessage_open o m w ch Hch).
    unfold closed_at_settlement, payload_of. rewrite Hb. exact Hopen. }
  unfold handler_events, completion_events. rewrite Hb, Hg, Hopen. split.
  - unfold getStatus. simpl. apply lookup_insert_eq.
  - rewrite trace_apply_events. reflexivity.
Qed.

(** C1. The pipeline answers the empty list: the handler inserts nothing,
    records the job as completed with no card and acks the message, where
    the controller's path, on the same answer, throws. *)
Example worker_completes_job_without_cards :
  handleMessage empty_oracle sample_message ready_world
  = (Ok tt,
     apply_events
       [ EvStatusSet "job-1" (Processing processing_message);
         EvGenerate (generateInput sample_payload) true;
         EvStatusSet "job-1" (Completed completed_message []);
         EvAck sample_message ] ready_world)
  /\ getStatus "job-1" (exec (handleMessage empty_oracle sample_message)
                          ready_world)
     = Some (Completed completed_message [])
  /\ fst (Controller.generateCardsWithFallback empty_oracle
            (generateInput sample_payload) ready_world)
     = Throw (JsError "Erro ao gerar flashcards.").
Proof. vm_compute. repeat split. Qed.

(** ** The Submitter and the broker adapter *)

(** C6. When the channel is unset and connect or createChannel rejects,
    [enqueue] rejects with that error; it has made no call but the failed
    set-up (no identifier drawn, no status written, nothing published), and
    the status map and the broker's queue are as they were. *)
Theorem enqueue_fails_without_channel o input w :
  channel w = None ->
  o_connect o = false \/ o_createChannel o = false ->
  exists w',
    enqueue o input w
      = (Throw (if o_connect o then CreateChannelError else ConnectError), w')
    /\ statuses w' = statuses w
    /\ broker_queue w' = broker_queue w
    /\ channel w' = None
    /\ trace w' = trace w
                  ++ EvConnect connectionString (o_connect o)
                  :: (if o_connect o then [EvCreateChannel false] else []).
Proof.
  intros Hch Hfail. destruct w as [cn ch ic st q tr]. simpl in Hch. subst ch.
  run_method.
  destruct (o_connect o) eqn:Hc; simpl.
  - destruct Hfail as [Hfail | Hfail]; [discriminate|]. rewrite Hfail. simpl.
    eexists. repeat split. simpl. rewrite <- app_assoc. reflexivity.
  - eexists. repeat split.
Qed.

Lemma enqueue_fails_without_channel_witness :
  exists w',
    enqueue unreachable_broker sample_input initial_world
      = (Throw ConnectError, w')
    /\ statuses w' = statuses initial_world
    /\ broker_queue w' = broker_queue initial_world
    /\ channel w' = None
    /\ trace w' = trace initial_world
                  ++ [EvConnect connectionString false].
Proof.
  apply (enqueue_fails_without_channel unreachable_broker sample_input
           initial_world).
  - reflexivity.
  - left. reflexivity.
Defined.

(** *** Counting connections, channels and subscriptions *)

Lemma count_app f tr1 tr2 : count f (tr1 ++ tr2) = count f tr1 + count f tr2.
Proof. unfold count. rewrite List.filter_app. apply length_app. Qed.

Lemma count_no_setup f evs :
  (forall e, f e = true -> is_setup e = true) ->
  Forall (fun e => is_setup e = false) evs ->
  count f evs = 0.
Proof.
  intros Hf Hall. induction Hall as [|e evs He _ IH]; [reflexivity|].
  unfold count in *. simpl. destruct (f e) eqn:E; [|exact IH].
  apply Hf in E. congruence.
Qed.

Lemma insert_events_no_setup o p cards : forall k,
  Forall (fun e => is_setup e = false) (insert_events o p k cards).
Proof.
  induction cards as [|c rest IH]; intros k; simpl; [constructor|].
  repeat constructor. destruct (o_insert o k); [apply IH | constructor].
Qed.

Lemma failure_events_no_setup o m payload e :
  Forall (fun e => is_setup e = false) (failure_events o m payload e).
Proof.
  unfold failure_events.
  destruct (closed_in_catch o payload); repeat constructor.
Qed.

Lemma handler_events_no_setup o m :
  Forall (fun e => is_setup e = false) (handler_events o m).
Proof.
  unfold handler_events.
  destruct (msg_content m) as [p|t]; [|apply failure_events_no_setup].
  constructor; [reflexivity|].
  destruct (o_generate o (generateInput p)) as [cards|];
    [|constructor; [reflexivity | apply failure_events_no_setup]].
  constructor; [reflexivity|]. apply Forall_app. split.
  - apply insert_events_no_setup.
  - destruct (inserts_succeed o 0 cards); [|apply failure_events_no_setup].
    unfold completion_events. constructor; [reflexivity|].
    destruct (o_channel_closes o); [|repeat constructor].
    constructor; [reflexivity | apply failure_events_no_setup].
Qed.

(** *** What [init], [startConsumer] and [enqueue] do, call by call *)

Lemma init_frame o w :
  trace (exec (init o) w) = trace w ++ setup_events o w
  /\ statuses (exec (init o) w) = statuses w
  /\ broker_queue (exec (init o) w) = broker_queue w.
Proof. unfold init. run_method. method_cases w o. Qed.

Lemma startConsumer_frame o w :
  trace (exec (startConsumer o) w) = trace w ++ consumer_events o w
  /\ statuses (exec (startConsumer o) w) = statuses w
  /\ broker_queue (exec (startConsumer o) w) = broker_queue w.
Proof. unfold startConsumer. run_method. method_cases w o. Qed.

Lemma enqueue_spec o input w :
  trace (exec (enqueue o input) w) = trace w ++ enqueue_events o input w
  /\ if channel_ready o w
     then statuses (exec (enqueue o input) w)
          = <[o_uuid o 0 := Queued queued_message]> (statuses w)
          /\ if o_channel_closes o
             then broker_queue (exec (enqueue o input) w) = broker_queue w
                  /\ fst (enqueue o input w) = Throw ChannelClosedError
             else broker_queue (exec (enqueue o input) w)
                  = broker_queue w ++ [published input (o_uuid o 0)]
                  /\ fst (enqueue o input w)
                     = (if isConsuming w || o_consume o
                        then Ok (o_uuid o 0) else Throw ConsumeError)
     else statuses (exec (enqueue o input) w) = statuses w
          /\ broker_queue (exec (enqueue o input) w) = broker_queue w
          /\ exists e, fst (enqueue o input w) = Throw e.
Proof. unfold enqueue. run_method. method_cases w o. Qed.

Lemma init_fields o w :
  has_channel (exec (init o) w)
  = has_channel w || (o_connect o && o_createChannel o)
  /\ isConsuming (exec (init o) w) = isConsuming w.
Proof. unfold init. run_method. field_cases w o. Qed.

Lemma startConsumer_fields o w :
  has_channel (exec (startConsumer o) w)
  = has_channel w || (o_connect o && o_createChannel o)
  /\ isConsuming (exec (startConsumer o) w)
     = isConsuming w || channel_ready o w.
Proof. unfold startConsumer. run_method. field_cases w o. Qed.

Lemma enqueue_fields o input w :
  has_channel (exec (enqueue o input) w)
  = has_channel w || (o_connect o && o_createChannel o)
  /\ isConsuming (exec (enqueue o input) w)
     = isConsuming w || publishes o w.
Proof. unfold enqueue. run_method. field_cases w o. Qed.

(** One call keeps [setup_ok] when its new events are counted right. *)
Lemma setup_ok_step w w' evs :
  trace w' = trace w ++ evs ->
  count is_channel evs
  = (if has_channel w then 0 else if has_channel w' then 1 else 0) ->
  (has_channel w = true -> has_channel w' = true) ->
  count is_subscription evs
  <= (if isConsuming w then 0 else if isConsuming w' then 1 else 0) ->
  (isConsuming w = true -> isConsuming w' = true) ->
  count is_connection evs
  = count is_channel evs + count is_failed_channel evs ->
  setup_ok w -> setup_ok w'.
Proof.
  intros Htr Hch Hmono Hsub Hmono' Hconn [H1 H2 H3 H4 H5].
  unfold channels, subscriptions, connections, failed_channels in *.
  constructor;
    unfold channels, subscriptions, connections, failed_channels;
    rewrite Htr, ?count_app;
    destruct (has_channel w), (has_channel w'), (isConsuming w),
      (isConsuming w');
    try specialize (H1 eq_refl); try specialize (H3 eq_refl);
    try specialize (Hmono eq_refl); try specialize (Hmono' eq_refl);
    try discriminate; intros; try discriminate; lia.
Qed.

Lemma init_setup_ok o w : setup_ok w -> setup_ok (exec (init o) w).
Proof.
  destruct (init_frame o w) as (Htr & _).
  destruct (init_fields o w) as (Hc & Hi).
  apply (setup_ok_step w _ _ Htr); rewrite ?Hc, ?Hi; clear Htr Hc Hi.
  all: count_cases w o.
Qed.

Lemma startConsumer_setup_ok o w :
  setup_ok w -> setup_ok (exec (startConsumer o) w).
Proof.
  destruct (startConsumer_frame o w) as (Htr & _).
  destruct (startConsumer_fields o w) as (Hc & Hi).
  apply (setup_ok_step w _ _ Htr); rewrite ?Hc, ?Hi; clear Htr Hc Hi.
  all: count_cases w o.
Qed.

Lemma enqueue_setup_ok o input w :
  setup_ok w -> setup_ok (exec (enqueue o input) w).
Proof.
  destruct (enqueue_spec o input w) as (Htr & _).
  destruct (enqueue_fields o input w) as (Hc & Hi).
  apply (setup_ok_step w _ _ Htr); rewrite ?Hc, ?Hi; clear Htr Hc Hi.
  all: count_cases w o.
Qed.

Lemma handleMessage_setup_ok o m w :
  setup_ok w -> setup_ok (exec (handleMessage o m) w).
Proof.
  intros H. destruct (channel w) as [ch|] eqn:Hch.
  - unfold exec. rewrite (handleMessage_spec o m w ch Hch). simpl.
    pose proof (handler_events_no_setup o m) as Hq.
    destruct (apply_events_frame (handler_events o m) w)
      as (_ & Ech & Econs & _ & Etr).
    destruct H as [H1 H2 H3 H4 H5].
    assert (forall f, (forall e, f e = true -> is_setup e = true) ->
              count f (trace (apply_events (handler_events o m) w))
              = count f (trace w)) as Hcount.
    { intros f Hf. rewrite Etr, count_app, (count_no_setup f _ Hf Hq). lia. }
    assert (channels (apply_events (handler_events o m) w) = channels w) as Ec
      by (apply Hcount; intros [] E; try discriminate; reflexivity).
    assert (subscriptions (apply_events (handler_events o m) w)
            = subscriptions w) as Es
      by (apply Hcount; intros [] E; try discriminate; reflexivity).
    assert (connections (apply_events (handler_events o m) w)
            = connections w) as En
      by (apply Hcount; intros [] E; try discriminate; reflexivity).
    assert (failed_channels (apply_events (handler_events o m) w)
            = failed_channels w) as Ef
      by (apply Hcount; intros [] E; try discriminate; reflexivity).
    assert (has_channel (apply_events (handler_events o m) w) = has_channel w)
      as Eh by (unfold has_channel; rewrite Ech; reflexivity).
    constructor; rewrite ?Ec, ?Es, ?En, ?Ef, ?Eh, ?Econs; assumption.
  - unfold exec. rewrite (handleMessage_returns_at_once o m w Hch). exact H.
Qed.

Lemma take_message_setup_ok i w : setup_ok w -> setup_ok (take_message i w).
Proof. intros [H1 H2 H3 H4 H5]. constructor; assumption. Qed.

Lemma run_call_setup_ok c w : setup_ok w -> setup_ok (run_call c w).
Proof.
  intros H. destruct c as [o | o input | o | o i | o]; simpl.
  - apply init_setup_ok, H.
  - apply enqueue_setup_ok, H.
  - apply startConsumer_setup_ok, H.
  - destruct (broker_queue w !! i) as [m|]; [|exact H].
    destruct (subscribed w); [|exact H].
    apply handleMessage_setup_ok, take_message_setup_ok, H.
  - exact H.
Qed.

Lemma run_calls_setup_ok calls : forall w,
  setup_ok w -> setup_ok (run_calls calls w).
Proof.
  induction calls as [|c calls IH]; intros w H; [exact H|].
  simpl. apply IH, run_call_setup_ok, H.
Qed.

Lemma initial_setup_ok : setup_ok initial_world.
Proof. constructor; vm_compute; auto. Qed.

Lemma init_with_channel o w ch : channel w = Some ch -> init o w = (Ok tt, w).
Proof. intros H. unfold init, bind, gets. rewrite H. reflexivity. Qed.

(** Whatever is called on a fresh process, and in whatever order, at most
    one channel is created and at most one subscription is registered, and
    [init] does nothing once the channel is set.  Connections are opened
    once per attempt to create a channel: there are as many as there are
    channels plus failed createChannel calls. *)
Lemma setup_is_idempotent calls o :
  let w := run_calls calls initial_world in
  channels w <= 1
  /\ subscriptions w <= 1
  /\ connections w = channels w + failed_channels w
  /\ (failed_channels w = 0 -> connections w <= 1)
  /\ (channel w <> None -> init o w = (Ok tt, w)).
Proof.
  intros w.
  destruct (run_calls_setup_ok calls initial_world initial_setup_ok)
    as [H1 H2 H3 H4 H5].
  fold w in H1, H2, H3, H4, H5.
  repeat split; try assumption.
  - intros Hf. lia.
  - intros Hch. destruct (channel w) as [ch|] eqn:E; [|congruence].
    apply (init_with_channel o w ch E).
Qed.

(** C9. At most one connection per process fails on the code: when
    createChannel rejects during a first [init], the connection just opened
    stays open, the channel stays unset, and the next [init] connects
    again.  Two connections are open after the two calls, for one
    channel. *)
Lemma second_connection_after_failed_channel :
  let w := run_calls [CallInit channel_refused; CallInit sample_oracle]
             initial_world in
  connections w = 2
  /\ channels w = 1
  /\ trace w = [ EvConnect connectionString true; EvCreateChannel false;
                 EvConnect connectionString true; EvCreateChannel true;
                 EvAssertQueue queueName true true ].
Proof. vm_compute. repeat split. Qed.

(** ** The life of a job *)

Lemma status_log_app j tr evs :
  status_log j (tr ++ evs) = status_log j tr ++ status_log j evs.
Proof. apply omap_app. Qed.

Lemma status_log_cons j e evs :
  status_log j (e :: evs) = status_log j [e] ++ status_log j evs.
Proof. apply (status_log_app j [e] evs). Qed.

Lemma status_log_setup j evs :
  Forall (fun e => is_setup e = true) evs -> status_log j evs = [].
Proof.
  induction 1 as [|e evs He _ IH]; [reflexivity|].
  rewrite status_log_cons, IH.
  destruct e; try discriminate; reflexivity.
Qed.

Lemma setup_events_setup o w :
  Forall (fun e => is_setup e = true) (setup_events o w).
Proof.
  unfold setup_events, init_events.
  destruct (channel w), (o_connect o), (o_createChannel o);
    repeat constructor.
Qed.

Lemma consumer_events_setup o w :
  Forall (fun e => is_setup e = true) (consumer_events o w).
Proof.
  unfold consumer_events. apply Forall_app. split.
  - apply setup_events_setup.
  - destruct (channel_ready o w && negb (isConsuming w)); repeat constructor.
Qed.

Lemma status_log_enqueue j o input w :
  status_log j (enqueue_events o input w)
  = if channel_ready o w
    then (if decide (o_uuid o 0 = j) then [queued] else [])
    else [].
Proof.
  unfold enqueue_events. rewrite status_log_app.
  rewrite (status_log_setup j _ (setup_events_setup o w)).
  destruct (channel_ready o w); [|reflexivity].
  unfold status_log. simpl.
  destruct (decide (o_uuid o 0 = j)), (o_channel_closes o), (isConsuming w);
    reflexivity.
Qed.

Lemma status_log_insert_events j o p cards : forall k,
  status_log j (insert_events o p k cards) = [].
Proof.
  induction cards as [|c rest IH]; intros k; [reflexivity|].
  simpl. destruct (o_insert o k); [apply IH | reflexivity].
Qed.

Lemma status_log_failure_events j o m payload e :
  status_log j (failure_events o m payload e)
  = if decide (failureKey payload m = j) then [failed] else [].
Proof.
  unfold failure_events, status_log. simpl.
  destruct (decide (failureKey payload m = j)), (closed_in_catch o payload);
    reflexivity.
Qed.

Lemma status_log_set j k s evs :
  status_log j (EvStatusSet k s :: evs)
  = (if decide (k = j) then [state s] else []) ++ status_log j evs.
Proof. unfold status_log. simpl. destruct (decide (k = j)); reflexivity. Qed.

Lemma status_log_skip j e evs :
  match e with EvStatusSet _ _ => False | _ => True end ->
  status_log j (e :: evs) = status_log j evs.
Proof. destruct e; intros H; try contradiction; reflexivity. Qed.

Lemma status_log_handler j o m p :
  msg_content m = BodyPayload p ->
  status_log j (handler_events o m)
  = if decide (jobId p = j) then processing :: verdicts o p else [].
Proof.
  intros Hb. unfold handler_events, verdicts. rewrite Hb.
  rewrite status_log_set.
  destruct (o_generate o (generateInput p)) as [cards|].
  - rewrite status_log_skip by exact I.
    rewrite status_log_app, status_log_insert_events.
    destruct (inserts_succeed o 0 cards).
    + unfold completion_events. rewrite status_log_set.
      destruct (o_channel_closes o).
      * rewrite status_log_skip by exact I.
        rewrite status_log_failure_events. simpl.
        destruct (decide (jobId p = j)); reflexivity.
      * rewrite status_log_skip by exact I. simpl.
        destruct (decide (jobId p = j)); reflexivity.
    + rewrite status_log_failure_events. simpl.
      destruct (decide (jobId p = j)); reflexivity.
  - rewrite status_log_skip by exact I.
    rewrite status_log_failure_events. simpl.
    destruct (decide (jobId p = j)); reflexivity.
Qed.

Lemma statuses_untouched k evs : forall w,
  status_log k evs = [] ->
  statuses (apply_events evs w) !! k = statuses w !! k.
Proof.
  induction evs as [|e evs IH]; intros w H; [reflexivity|].
  rewrite apply_events_cons.
  rewrite status_log_cons in H. apply app_eq_nil in H as [He H].
  rewrite IH by exact H.
  destruct e; try reflexivity.
  unfold status_log in He. simpl in He.
  destruct (decide (key = k)) as [->|Hne]; [discriminate|].
  simpl. apply lookup_insert_ne, Hne.
Qed.

Lemma initial_jobs_ok : jobs_ok initial_world.
Proof.
  constructor; simpl.
  - intros j. left. reflexivity.
  - intros m H. inversion H.
  - constructor.
  - intros j H. contradiction.
Qed.

(** A call that only sets the broker up leaves the jobs alone. *)
Lemma setup_only_jobs_ok w w' evs :
  trace w' = trace w ++ evs ->
  Forall (fun e => is_setup e = true) evs ->
  statuses w' = statuses w ->
  broker_queue w' = broker_queue w ->
  jobs_ok w -> jobs_ok w'.
Proof.
  intros Htr Hsetup Hst Hq [H1 H2 H3 H4].
  assert (forall j, status_log j (trace w') = status_log j (trace w)) as Hlog.
  { intros j. rewrite Htr, status_log_app, (status_log_setup j evs Hsetup).
    apply app_nil_r. }
  constructor.
  - intros j. rewrite Hlog. apply H1.
  - intros m Hm. rewrite Hq in Hm. destruct (H2 m Hm) as (p & Hb & Hl & Hs).
    exists p. rewrite Hlog, Hst. auto.
  - rewrite Hq. exact H3.
  - intros j Hj. rewrite Hlog in Hj. rewrite Htr. apply in_or_app. left.
    apply H4, Hj.
Qed.

Lemma pending_key w m p :
  jobs_ok w -> m ∈ broker_queue w -> msg_content m = BodyPayload p ->
  In (EvUuid (jobId p)) (trace w).
Proof.
  intros [H1 H2 H3 H4] Hm Hb. destruct (H2 m Hm) as (p' & Hb' & Hl & _).
  rewrite Hb in Hb'. injection Hb' as <-. apply H4. rewrite Hl. discriminate.
Qed.

Lemma enqueue_jobs_ok o input w :
  ~ In (EvUuid (o_uuid o 0)) (trace w) ->
  jobs_ok w -> jobs_ok (exec (enqueue o input) w).
Proof.
  intros Hfresh Hok.
  destruct (enqueue_spec o input w) as (Htr & Hrest).
  destruct (channel_ready o w) eqn:Hready.
  - destruct Hrest as (Hst & Hrest).
    pose proof Hok as [H1 H2 H3 H4].
    assert (status_log (o_uuid o 0) (trace w) = []) as Hnew.
    { destruct (status_log (o_uuid o 0) (trace w)) eqn:E; [reflexivity|].
      exfalso. apply Hfresh, H4. rewrite E. discriminate. }
    assert (forall j, status_log j (trace (exec (enqueue o input) w))
                      = status_log j (trace w)
                        ++ (if decide (o_uuid o 0 = j) then [queued] else []))
      as Hlog.
    { intros j. rewrite Htr, status_log_app, status_log_enqueue, Hready.
      reflexivity. }
    assert (forall m, m ∈ broker_queue w ->
              exists p, msg_content m = BodyPayload p
                /\ status_log (jobId p) (trace (exec (enqueue o input) w))
                   = [queued]
                /\ statuses (exec (enqueue o input) w) !! jobId p
                   = Some (Queued queued_message)) as Hold.
    { intros m Hm. destruct (H2 m Hm) as (p & Hb & Hl & Hs). exists p.
      assert (o_uuid o 0 <> jobId p) as Hne.
      { intros E. apply Hfresh. rewrite E. apply (pending_key w m p Hok Hm Hb). }
      rewrite Hlog, Hst. destruct (decide (o_uuid o 0 = jobId p));
        [contradiction|].
      rewrite app_nil_r, lookup_insert_ne by exact Hne. auto. }
    constructor.
    + intros j. rewrite Hlog. destruct (decide (o_uuid o 0 = j)) as [<-|Hne].
      * rewrite Hnew. right. left. reflexivity.
      * rewrite app_nil_r. apply H1.
    + destruct (o_channel_closes o); destruct Hrest as (Hq & _);
        intros m Hm; rewrite Hq in Hm; [apply Hold, Hm|].
      apply elem_of_app in Hm as [Hm | Hm]; [apply Hold, Hm|].
      apply list_elem_of_singleton in Hm. subst m.
      exists (withJobId input (o_uuid o 0)). simpl.
      rewrite Hlog, Hst, Hnew. destruct (decide (o_uuid o 0 = o_uuid o 0));
        [|contradiction].
      rewrite lookup_insert_eq. auto.
    + destruct (o_channel_closes o); destruct Hrest as (Hq & _); rewrite Hq;
        [exact H3|].
      rewrite fmap_app. apply NoDup_app. split; [exact H3|]. split.
      * intros k Hk Hk'. apply list_elem_of_singleton in Hk'.
        apply list_elem_of_fmap in Hk as (m & -> & Hm).
        destruct (H2 m Hm) as (p & Hb & _).
        apply Hfresh.
        change (o_uuid o 0)
          with (message_key (published input (o_uuid o 0))).
        rewrite <- Hk'. unfold message_key, payload_of. rewrite Hb. simpl.
        apply (pending_key w m p Hok Hm Hb).
      * apply NoDup_singleton.
    + intros j Hj. rewrite Htr. apply in_or_app.
      rewrite Hlog in Hj. destruct (decide (o_uuid o 0 = j)) as [<-|Hne].
      * right. unfold enqueue_events. apply in_or_app. right.
        rewrite Hready. left. reflexivity.
      * left. apply H4. rewrite app_nil_r in Hj. exact Hj.
  - destruct Hrest as (Hst & Hq & _).
    apply (setup_only_jobs_ok w _ (enqueue_events o input w)); try assumption.
    unfold enqueue_events. rewrite Hready, app_nil_r.
    apply setup_events_setup.
Qed.

Lemma take_message_jobs_ok i m w :
  broker_queue w !! i = Some m ->
  jobs_ok w ->
  jobs_ok (take_message i w)
  /\ message_key m ∉ (message_key <$> broker_queue (take_message i w)).
Proof.
  intros Hi [H1 H2 H3 H4].
  pose proof (take_drop_middle _ _ _ Hi) as Hsplit.
  assert (forall m', m' ∈ delete i (broker_queue w) -> m' ∈ broker_queue w)
    as Hsub.
  { intros m' Hm'. rewrite delete_take_drop in Hm'. rewrite <- Hsplit.
    apply elem_of_app in Hm' as [Hm' | Hm']; apply elem_of_app;
      [left | right; right]; exact Hm'. }
  rewrite <- Hsplit, fmap_app, fmap_cons in H3.
  apply NoDup_app in H3 as (Ha & Hb & Hc).
  apply NoDup_cons in Hc as (Hc & Hd).
  split.
  - constructor; simpl.
    + exact H1.
    + intros m' Hm'. apply H2, Hsub, Hm'.
    + rewrite delete_take_drop, fmap_app. apply NoDup_app.
      split; [exact Ha|]. split; [|exact Hd].
      intros k Hk Hk'. apply (Hb k Hk). right. exact Hk'.
    + exact H4.
  - simpl. rewrite delete_take_drop, fmap_app. intros Hin.
    apply elem_of_app in Hin as [Hin | Hin].
    + apply (Hb _ Hin). left.
    + apply Hc, Hin.
Qed.

Lemma handleMessage_jobs_ok o m p w :
  msg_content m = BodyPayload p ->
  status_log (jobId p) (trace w) = [queued] ->
  message_key m ∉ (message_key <$> broker_queue w) ->
  jobs_ok w -> jobs_ok (exec (handleMessage o m) w).
Proof.
  intros Hb Hlogm Hkey Hok.
  destruct (channel w) as [ch|] eqn:Hch.
  2:{ unfold exec. rewrite (handleMessage_returns_at_once o m w Hch).
      exact Hok. }
  unfold exec. rewrite (handleMessage_spec o m w ch Hch). simpl.
  destruct (apply_events_frame (handler_events o m) w)
    as (_ & _ & _ & Hq & Htr).
  pose proof Hok as [H1 H2 H3 H4].
  assert (forall j, status_log j (trace (apply_events (handler_events o m) w))
                    = status_log j (trace w)
                      ++ (if decide (jobId p = j)
                          then processing :: verdicts o p else [])) as Hlog.
  { intros j. rewrite Htr, status_log_app, (status_log_handler j o m p Hb).
    reflexivity. }
  assert (message_key m = jobId p) as Hkm
    by (unfold message_key, payload_of; rewrite Hb; reflexivity).
  constructor.
  - intros j. rewrite Hlog. destruct (decide (jobId p = j)) as [<-|Hne].
    + rewrite Hlogm. unfold verdicts.
      destruct (o_generate o (generateInput p)) as [cards|];
        [destruct (inserts_succeed o 0 cards), (o_channel_closes o)|];
        simpl; unfold at_rest; auto 10.
    + rewrite app_nil_r. apply H1.
  - intros m' Hm'. rewrite Hq in Hm'.
    destruct (H2 m' Hm') as (p' & Hb' & Hl & Hs). exists p'.
    assert (jobId p <> jobId p') as Hne.
    { intros E. apply Hkey. rewrite Hkm, E.
      apply list_elem_of_fmap. exists m'. split; [|exact Hm'].
      unfold message_key, payload_of. rewrite Hb'. reflexivity. }
    rewrite Hlog. destruct (decide (jobId p = jobId p')); [contradiction|].
    rewrite app_nil_r. split; [exact Hb'|]. split; [exact Hl|].
    rewrite statuses_untouched; [exact Hs|].
    rewrite (status_log_handler _ o m p Hb).
    destruct (decide (jobId p = jobId p')); [contradiction | reflexivity].
  - rewrite Hq. exact H3.
  - intros j Hj. rewrite Htr. apply in_or_app. left. apply H4.
    rewrite Hlog in Hj. destruct (decide (jobId p = j)) as [<-|Hne].
    + rewrite Hlogm. discriminate.
    + rewrite app_nil_r in Hj. exact Hj.
Qed.

Lemma run_call_jobs_ok c w :
  match c with
  | CallEnqueue o _ => ~ In (EvUuid (o_uuid o 0)) (trace w)
  | _ => True
  end ->
  jobs_ok w -> jobs_ok (run_call c w).
Proof.
  intros Hfresh Hok. destruct c as [o | o input | o | o i | o]; simpl.
  - destruct (init_frame o w) as (Htr & Hst & Hq).
    apply (setup_only_jobs_ok w _ _ Htr (setup_events_setup o w) Hst Hq Hok).
  - apply enqueue_jobs_ok; assumption.
  - destruct (startConsumer_frame o w) as (Htr & Hst & Hq).
    apply (setup_only_jobs_ok w _ _ Htr (consumer_events_setup o w) Hst Hq Hok).
  - destruct (broker_queue w !! i) as [m|] eqn:Hi; [|exact Hok].
    destruct (subscribed w); [|exact Hok].
    destruct (take_message_jobs_ok i m w Hi Hok) as (Hok' & Hkey).
    assert (m ∈ broker_queue w) as Hm by (eapply list_elem_of_lookup_2, Hi).
    destruct (pending_queued w Hok m Hm) as (p & Hb & Hl & _).
    apply (handleMessage_jobs_ok o m p); assumption.
  - exact Hok.
Qed.

Lemma run_calls_jobs_ok calls : forall w,
  unique_ids calls w -> jobs_ok w -> jobs_ok (run_calls calls w).
Proof.
  induction calls as [|c calls IH]; intros w Hu Hok; [exact Hok|].
  destruct Hu as (Hc & Hu). simpl. apply IH; [exact Hu|].
  apply run_call_jobs_ok; assumption.
Qed.

Lemma unique_ids_app calls1 calls2 : forall w,
  unique_ids (calls1 ++ calls2) w ->
  unique_ids calls1 w /\ unique_ids calls2 (run_calls calls1 w).
Proof.
  induction calls1 as [|c calls1 IH]; intros w H; [split; [exact I | exact H]|].
  destruct H as (Hc & H). destruct (IH _ H) as (H1 & H2).
  split; [split; assumption | exact H2].
Qed.

Lemma run_calls_app calls1 calls2 w :
  run_calls (calls1 ++ calls2) w = run_calls calls2 (run_calls calls1 w).
Proof. apply foldl_app. Qed.

(** *** The two terminal states *)

Lemma at_rest_forward l :
  at_rest l ->
  l `prefix_of` [queued; processing; completed; failed]
  \/ l `prefix_of` [queued; processing; failed].
Proof.
  intros [-> | [-> | [-> | [-> | ->]]]].
  - left. apply prefix_nil.
  - left. exists [processing; completed; failed]. reflexivity.
  - left. exists [failed]. reflexivity.
  - right. reflexivity.
  - left. reflexivity.
Qed.

Lemma at_rest_one_terminal l :
  at_rest l -> l <> [queued; processing; completed; failed] ->
  lifecycle l
  /\ (l `sublist_of` [queued; processing; completed]
      \/ l `sublist_of` [queued; processing; failed]).
Proof.
  intros [-> | [-> | [-> | [-> | ->]]]] Hne; [| | | |contradiction].
  - split; [left; apply prefix_nil | left; repeat constructor].
  - split; [left; exists [processing; completed]; reflexivity
           | left; repeat constructor].
  - split; [left; reflexivity | left; repeat constructor].
  - split; [right; reflexivity | right; repeat constructor].
Qed.

(** The trace only grows. *)
Lemma run_call_trace_grows c w :
  exists evs, trace (run_call c w) = trace w ++ evs.
Proof.
  destruct c as [o | o input | o | o i | o]; simpl.
  - eexists. apply init_frame.
  - eexists. apply enqueue_spec.
  - eexists. apply startConsumer_frame.
  - destruct (broker_queue w !! i) as [m|];
      [|exists []; symmetry; apply app_nil_r].
    destruct (subscribed w); [|exists []; symmetry; apply app_nil_r].
    destruct (channel w) as [ch|] eqn:Hch.
    + exists (handler_events o m). unfold exec.
      rewrite (handleMessage_spec o m (take_message i w) ch Hch).
      cbn [snd]. rewrite trace_apply_events. reflexivity.
    + exists []. unfold exec.
      rewrite (handleMessage_returns_at_once o m (take_message i w) Hch).
      symmetry. apply app_nil_r.
  - exists []. symmetry. apply app_nil_r.
Qed.

Lemma handler_events_thrown_ack o m p :
  msg_content m = BodyPayload p ->
  verdicts o p = [completed; failed] ->
  In (EvAckThrew m) (handler_events o m).
Proof.
  intros Hb Hv. unfold handler_events. rewrite Hb. unfold verdicts in Hv.
  destruct (o_generate o (generateInput p)) as [cards|]; [|discriminate].
  right. right. apply in_or_app. right.
  destruct (inserts_succeed o 0 cards); [|discriminate].
  unfold completion_events.
  destruct (o_channel_closes o); [|discriminate].
  right. left. reflexivity.
Qed.

(** A job has both terminal states only when the ack of its message
    threw. *)
Lemma run_call_twice_terminal c w :
  jobs_ok w ->
  (forall j, status_log j (trace w) = [queued; processing; completed; failed] ->
     exists m, In (EvAckThrew m) (trace w) /\ message_key m = j) ->
  forall j,
    status_log j (trace (run_call c w))
    = [queued; processing; completed; failed] ->
    exists m, In (EvAckThrew m) (trace (run_call c w)) /\ message_key m = j.
Proof.
  intros Hok Hinv j Hj.
  destruct (run_call_trace_grows c w) as (evs & Hgrow).
  assert (status_log j (trace w) = [queued; processing; completed; failed] ->
          exists m, In (EvAckThrew m) (trace (run_call c w))
                    /\ message_key m = j) as Hold.
  { intros H. destruct (Hinv j H) as (m & Hin & Hk). exists m.
    split; [|exact Hk]. rewrite Hgrow. apply in_or_app. left. exact Hin. }
  destruct c as [o | o input | o | o i | o]; simpl in Hj |- *.
  - destruct (init_frame o w) as (Htr & _).
    rewrite Htr, status_log_app,
      (status_log_setup j _ (setup_events_setup o w)), app_nil_r in Hj.
    apply Hold, Hj.
  - destruct (enqueue_spec o input w) as (Htr & _).
    rewrite Htr, status_log_app, status_log_enqueue in Hj.
    destruct (channel_ready o w); [|rewrite app_nil_r in Hj; apply Hold, Hj].
    destruct (decide (o_uuid o 0 = j)); [|rewrite app_nil_r in Hj; apply Hold, Hj].
    exfalso. apply (f_equal last) in Hj. rewrite last_snoc in Hj. discriminate.
  - destruct (startConsumer_frame o w) as (Htr & _).
    rewrite Htr, status_log_app,
      (status_log_setup j _ (consumer_events_setup o w)), app_nil_r in Hj.
    apply Hold, Hj.
  - clear Hold Hgrow.
    destruct (broker_queue w !! i) as [m|] eqn:Hi; [|apply Hinv, Hj].
    destruct (subscribed w); [|apply Hinv, Hj].
    assert (m ∈ broker_queue w) as Hm by (eapply list_elem_of_lookup_2, Hi).
    destruct (pending_queued w Hok m Hm) as (p & Hb & Hl & _).
    destruct (channel w) as [ch|] eqn:Hch.
    2:{ unfold exec in Hj |- *.
        rewrite (handleMessage_returns_at_once o m (take_message i w) Hch)
          in Hj |- *.
        destruct (Hinv j Hj) as (m' & Hin & Hk). exists m'. auto. }
    unfold exec in Hj |- *.
    rewrite (handleMessage_spec o m (take_message i w) ch Hch) in Hj |- *.
    cbn [snd] in Hj |- *. rewrite trace_apply_events in Hj |- *.
    rewrite status_log_app, (status_log_handler j o m p Hb) in Hj.
    destruct (decide (jobId p = j)) as [<-|Hne].
    + exists m. split.
      * apply in_or_app. right. apply (handler_events_thrown_ack o m p Hb).
        simpl in Hj. rewrite Hl in Hj. injection Hj as Hj. exact Hj.
      * unfold message_key, payload_of. rewrite Hb. reflexivity.
    + rewrite app_nil_r in Hj. destruct (Hinv j Hj) as (m' & Hin & Hk).
      exists m'. split; [|exact Hk]. apply in_or_app. left. exact Hin.
  - apply Hold, Hj.
Qed.

Lemma run_calls_twice_terminal calls : forall w,
  unique_ids calls w -> jobs_ok w ->
  (forall j, status_log j (trace w) = [queued; processing; completed; failed] ->
     exists m, In (EvAckThrew m) (trace w) /\ message_key m = j) ->
  forall j,
    status_log j (trace (run_calls calls w))
    = [queued; processing; completed; failed] ->
    exists m, In (EvAckThrew m) (trace (run_calls calls w))
              /\ message_key m = j.
Proof.
  induction calls as [|c calls IH]; intros w Hu Hok Hinv; [exact Hinv|].
  destruct Hu as (Hc & Hu). simpl. apply IH; [exact Hu| |].
  - apply run_call_jobs_ok; assumption.
  - apply run_call_twice_terminal; assumption.
Qed.

(** C4. In every run of enqueue and delivery calls on a fresh process in
    which the generator never repeats a job identifier, the states written
    under any key, in the order of the writes, are an initial part of
    queued, processing, completed, failed or of queued, processing, failed:
    no write goes back and none is repeated.  Unless the ack of the job's
    message threw, they are an initial part of queued, processing,
    completed or of queued, processing, failed: at most one terminal state
    is written, and they are a subsequence of one of the two. *)
Theorem job_status_lifecycle calls j :
  unique_ids calls initial_world ->
  let w := run_calls calls initial_world in
  let log := status_log j (trace w) in
  (log `prefix_of` [queued; processing; completed; failed]
   \/ log `prefix_of` [queued; processing; failed])
  /\ ((forall m, In (EvAckThrew m) (trace w) -> message_key m <> j) ->
      lifecycle log
      /\ (log `sublist_of` [queued; processing; completed]
          \/ log `sublist_of` [queued; processing; failed])).
Proof.
  intros Hu w log.
  pose proof (run_calls_jobs_ok calls initial_world Hu initial_jobs_ok) as Hok.
  pose proof (logs_at_rest _ Hok j) as Hrest. fold w log in Hrest.
  split; [apply at_rest_forward, Hrest|].
  intros Hack. apply at_rest_one_terminal; [exact Hrest|].
  intros Hlog.
  destruct (run_calls_twice_terminal calls initial_world Hu initial_jobs_ok)
    with (j := j) as (m & Hin & Hk).
  - intros j' H'. discriminate.
  - exact Hlog.
  - apply (Hack m Hin Hk).
Qed.

Lemma job_status_lifecycle_witness :
  let log := status_log "job-1"
               (trace (run_calls [ CallEnqueue submit_oracle sample_input;
                                   Deliver sample_oracle 0 ]
                         initial_world)) in
  (log `prefix_of` [queued; processing; completed; failed]
   \/ log `prefix_of` [queued; processing; failed])
  /\ lifecycle log
  /\ (log `sublist_of` [queued; processing; completed]
      \/ log `sublist_of` [queued; processing; failed]).
Proof.
  destruct (job_status_lifecycle [ CallEnqueue submit_oracle sample_input;
                                   Deliver sample_oracle 0 ] "job-1")
    as (H1 & H2).
  - simpl. split; [intros [] | split; exact I].
  - split; [exact H1|]. apply H2.
    intros m Hin. vm_compute in Hin.
    repeat (destruct Hin as [Hin | Hin]; [discriminate|]). destruct Hin.
Defined.

(** C4 without that condition fails: the job is submitted, its message
    delivered, the pipeline and the inserts succeed, the channel closes
    meanwhile and ack throws; the catch block then writes failed after
    completed, two terminal states for one job. *)
Lemma two_terminal_states_when_ack_throws :
  let calls := [ CallEnqueue submit_oracle sample_input;
                 Deliver closing_oracle 0 ] in
  let log := status_log "job-1" (trace (run_calls calls initial_world)) in
  unique_ids calls initial_world
  /\ log = [queued; processing; completed; failed]
  /\ ~ lifecycle log
  /\ ~ (log `sublist_of` [queued; processing; completed]
        \/ log `sublist_of` [queued; processing; failed]).
Proof.
  intros calls log.
  assert (log = [queued; processing; completed; failed]) as Hlog
    by (vm_compute; reflexivity).
  split; [simpl; split; [intros [] | split; exact I]|].
  split; [exact Hlog|]. rewrite Hlog. split.
  - intros [[k H] | [k H]]; discriminate.
  - intros [H | H]; apply sublist_length in H; simpl in H; lia.
Qed.

(** C2. A successful [enqueue] writes the queued status under the
    identifier it returns before it publishes the message, and publishes
    nothing before that write; [getStatus] on that identifier answers the
    queued status when [enqueue] returns, and still does after any further
    calls as long as the job's message is in the broker's queue. *)
Theorem queued_before_publish_until_dequeued before o input later j w1 :
  unique_ids (before ++ CallEnqueue o input :: later) initial_world ->
  enqueue o input (run_calls before initial_world) = (Ok j, w1) ->
  pending j (run_calls later w1) ->
  (exists pre post,
      trace w1 = trace (run_calls before initial_world)
                 ++ pre
                 ++ [ EvStatusSet j (Queued queued_message);
                      EvSendToQueue queueName
                        (BodyPayload (withJobId input j)) true ]
                 ++ post
      /\ Forall (fun e => is_publish e = false) pre)
  /\ getStatus j w1 = Some (Queued queued_message)
  /\ getStatus j (run_calls later w1) = Some (Queued queued_message).
Proof.
  intros Hu Hrun Hpending.
  set (w0 := run_calls before initial_world) in *.
  destruct (enqueue_spec o input w0) as (Htr & Hrest).
  assert (w1 = exec (enqueue o input) w0) as Hw1
    by (unfold exec; rewrite Hrun; reflexivity).
  destruct (channel_ready o w0) eqn:Hready.
  2:{ destruct Hrest as (_ & _ & e & He). rewrite Hrun in He. discriminate. }
  destruct Hrest as (Hst & Hrest).
  destruct (o_channel_closes o) eqn:Hopen.
  { destruct Hrest as (_ & He). rewrite Hrun in He. discriminate. }
  destruct Hrest as (_ & Hres). rewrite Hrun in Hres. simpl in Hres.
  assert (j = o_uuid o 0) as Hj.
  { destruct (isConsuming w0 || o_consume o); [|discriminate].
    injection Hres as ->. reflexivity. }
  rewrite <- Hw1 in Htr, Hst. rewrite <- Hj in Hst.
  split; [|split].
  - exists (setup_events o w0 ++ [EvUuid j]),
      (if isConsuming w0 then [] else [EvConsume queueName (o_consume o)]).
    split.
    + rewrite Htr. unfold enqueue_events. rewrite Hready, Hopen, <- Hj.
      rewrite <- !app_assoc. reflexivity.
    + apply Forall_app. split; [|repeat constructor].
      eapply Forall_impl; [apply setup_events_setup|].
      intros e He. destruct e; try discriminate; reflexivity.
  - unfold getStatus. rewrite Hst. apply lookup_insert_eq.
  - assert (jobs_ok (run_calls later w1)) as Hok.
    { rewrite Hw1.
      change (exec (enqueue o input) w0)
        with (run_call (CallEnqueue o input) w0).
      change (run_calls later (run_call (CallEnqueue o input) w0))
        with (run_calls (CallEnqueue o input :: later) w0).
      unfold w0. rewrite <- run_calls_app.
      apply run_calls_jobs_ok; [exact Hu | apply initial_jobs_ok]. }
    destruct Hpending as (m & p & Hm & Hb & Hp).
    apply list_elem_of_In in Hm.
    destruct (pending_queued _ Hok m Hm) as (p' & Hb' & _ & Hs).
    rewrite Hb in Hb'. injection Hb' as <-. rewrite Hp in Hs. exact Hs.
Qed.

Lemma queued_before_publish_until_dequeued_witness :
  (exists pre post,
      trace (exec (enqueue submit_oracle sample_input) initial_world)
      = trace (run_calls [] initial_world)
        ++ pre
        ++ [ EvStatusSet "job-1" (Queued queued_message);
             EvSendToQueue queueName
               (BodyPayload (withJobId sample_input "job-1")) true ]
        ++ post
      /\ Forall (fun e => is_publish e = false) pre)
  /\ getStatus "job-1" (exec (enqueue submit_oracle sample_input) initial_world)
     = Some (Queued queued_message)
  /\ getStatus "job-1"
       (run_calls [CallEnqueue second_submit_oracle sample_input]
          (exec (enqueue submit_oracle sample_input) initial_world))
     = Some (Queued queued_message).
Proof.
  apply (queued_before_publish_until_dequeued [] submit_oracle sample_input
           [CallEnqueue second_submit_oracle sample_input] "job-1"
           (exec (enqueue submit_oracle sample_input) initial_world)).
  - simpl. split; [intros [] | split; [|exact I]].
    intros H. repeat (destruct H as [H | H]; [discriminate|]). destruct H.
  - vm_compute. reflexivity.
  - exists (published sample_input "job-1"), sample_payload.
    split; [vm_compute; left; reflexivity | split; reflexivity].
Defined.

(** * Further properties *)

(** ** One message *)

Lemma count_none f evs :
  Forall (fun e => f e = false) evs -> count f evs = 0.
Proof.
  induction 1 as [|e evs He _ IH]; [reflexivity|].
  unfold count in *. simpl. rewrite He. exact IH.
Qed.

Lemma insert_events_kinds o p cards : forall k,
  Forall (fun e => match e with EvUuid _ | EvInsert _ _ => True | _ => False end)
    (insert_events o p k cards).
Proof.
  induction cards as [|c rest IH]; intros k; simpl; [constructor|].
  repeat constructor. destruct (o_insert o k); [apply IH | constructor].
Qed.

Lemma insert_events_unsettled o p k cards :
  count is_settlement (insert_events o p k cards) = 0.
Proof.
  apply count_none. eapply Forall_impl; [apply insert_events_kinds|].
  intros [] H; try contradiction; reflexivity.
Qed.

Lemma insert_events_messages o p k cards :
  published_messages (insert_events o p k cards) = []
  /\ settled_messages (insert_events o p k cards) = []
  /\ abandoned_messages (insert_events o p k cards) = [].
Proof.
  revert k. induction cards as [|c rest IH]; intros k; [repeat split|].
  simpl. destruct (o_insert o k); [apply IH | repeat split].
Qed.

(** The handler's calls end with the write of the final status and the
    settlement; nothing before them settles. *)
Lemma handler_events_shape o m :
  exists pre,
    handler_events o m
    = pre ++ [ EvStatusSet (message_key m) (final_status o m); last_call o m ]
    /\ count is_settlement pre = 0
    /\ published_messages pre = []
    /\ settled_messages pre = []
    /\ abandoned_messages pre = [].
Proof.
  unfold handler_events, final_status, last_call, closed_at_settlement,
    completes, message_key, payload_of, completion_events, failure_events.
  destruct (msg_content m) as [p|text]; cbn [closed_in_catch failureKey].
  - destruct (o_generate o (generateInput p)) as [cards|].
    + destruct (insert_events_messages o p 0 cards) as (E1 & E2 & E3).
      destruct (inserts_succeed o 0 cards), (o_channel_closes o);
        cbn [andb negb].
      * exists ([ EvStatusSet (jobId p) (Processing processing_message);
                  EvGenerate (generateInput p) true ]
                ++ insert_events o p 0 cards
                ++ [ EvStatusSet (jobId p)
                       (Completed completed_message (map summary cards));
                     EvAckThrew m;
                     EvConsoleError ChannelClosedError ]).
        split; [rewrite <- !app_assoc; reflexivity|].
        unfold published_messages, settled_messages, abandoned_messages in *.
        rewrite !count_app, !omap_app, insert_events_unsettled, E1, E2, E3.
        repeat split.
      * exists ([ EvStatusSet (jobId p) (Processing processing_message);
                  EvGenerate (generateInput p) true ]
                ++ insert_events o p 0 cards).
        split; [rewrite <- !app_assoc; reflexivity|].
        unfold published_messages, settled_messages, abandoned_messages in *.
        rewrite !count_app, !omap_app, insert_events_unsettled, E1, E2, E3.
        repeat split.
      * exists ([ EvStatusSet (jobId p) (Processing processing_message);
                  EvGenerate (generateInput p) true ]
                ++ insert_events o p 0 cards
                ++ [EvConsoleError InsertError]).
        split; [rewrite <- !app_assoc; reflexivity|].
        unfold published_messages, settled_messages, abandoned_messages in *.
        rewrite !count_app, !omap_app, insert_events_unsettled, E1, E2, E3.
        repeat split.
      * exists ([ EvStatusSet (jobId p) (Processing processing_message);
                  EvGenerate (generateInput p) true ]
                ++ insert_events o p 0 cards
                ++ [EvConsoleError InsertError]).
        split; [rewrite <- !app_assoc; reflexivity|].
        unfold published_messages, settled_messages, abandoned_messages in *.
        rewrite !count_app, !omap_app, insert_events_unsettled, E1, E2, E3.
        repeat split.
    + exists [ EvStatusSet (jobId p) (Processing processing_message);
               EvGenerate (generateInput p) false;
               EvConsoleError GenerateError ].
      destruct (o_channel_closes o); repeat split.
  - exists [EvConsoleError JsonSyntaxError]. repeat split.
Qed.

Lemma last_of_two {A} (pre : list A) a b : last (pre ++ [a; b]) = Some b.
Proof.
  replace (pre ++ [a; b]) with ((pre ++ [a]) ++ [b])
    by (rewrite <- app_assoc; reflexivity).
  apply last_snoc.
Qed.

Lemma final_status_read o m w pre e :
  match e with EvStatusSet _ _ => False | _ => True end ->
  getStatus (message_key m)
    (apply_events (pre ++ [EvStatusSet (message_key m) (final_status o m); e]) w)
  = Some (final_status o m).
Proof.
  intros He. rewrite apply_events_app. unfold getStatus.
  destruct e; try contradiction; simpl; apply lookup_insert_eq.
Qed.

Lemma last_call_not_a_write o m :
  match last_call o m with EvStatusSet _ _ => False | _ => True end.
Proof.
  unfold last_call.
  destruct (closed_at_settlement o m), (completes o m); exact I.
Qed.

(** X1. On an open channel the handler's last two calls are the write of
    the final status under the message's key and the settlement, and
    nothing before them settles.  While the channel stays open the message
    is settled exactly once: with an ack, after the completed status that
    reports the question and the answer of every card, exactly when the
    body parsed, the pipeline answered and every insert resolved; with
    nack(message, false, false), after the failed status, otherwise.  When
    the channel has closed during the awaited calls nothing is settled: the
    nack throws, the status is the failed one and the handler rejects. *)
Theorem handled_message_settled_once o m w ch :
  channel w = Some ch ->
  let w' := exec (handleMessage o m) w in
  exists pre st settle,
    trace w' = trace w ++ pre ++ [EvStatusSet (message_key m) st; settle]
    /\ count is_settlement pre = 0
    /\ getStatus (message_key m) w' = Some st
    /\ (closed_at_settlement o m = false -> completes o m = true ->
        settle = EvAck m
        /\ fst (handleMessage o m w) = Ok tt
        /\ exists p cards,
             msg_content m = BodyPayload p
             /\ o_generate o (generateInput p) = Some cards
             /\ st = Completed completed_message (question_and_answer cards))
    /\ (closed_at_settlement o m = false -> completes o m = false ->
        settle = EvNack m false false
        /\ fst (handleMessage o m w) = Ok tt
        /\ st = Failed failed_message)
    /\ (closed_at_settlement o m = true ->
        settle = EvNackThrew m false false
        /\ fst (handleMessage o m w) = Throw ChannelClosedError
        /\ st = Failed failed_message).
Proof.
  intros Hch w'. subst w'. unfold exec.
  rewrite (handleMessage_spec o m w ch Hch). cbn [fst snd].
  destruct (handler_events_shape o m) as (pre & Hev & Hpre & _).
  exists pre, (final_status o m), (last_call o m).
  rewrite Hev, trace_apply_events.
  split; [reflexivity|]. split; [exact Hpre|].
  split; [apply final_status_read, last_call_not_a_write|].
  unfold last_call, final_status, handler_result, closed_at_settlement,
    completes, payload_of.
  destruct (msg_content m) as [p|text]; cbn [closed_in_catch].
  - destruct (o_generate o (generateInput p)) as [cards|] eqn:Hg.
    + destruct (inserts_succeed o 0 cards), (o_channel_closes o);
        cbn [andb negb]; repeat split; try discriminate;
        try (exists p, cards; repeat split; assumption).
    + destruct (o_channel_closes o); repeat split; discriminate.
  - repeat split; discriminate.
Qed.

Lemma handled_message_settled_once_witness :
  let w' := exec (handleMessage sample_oracle sample_message) ready_world in
  exists pre st settle,
    trace w' = trace ready_world
               ++ pre ++ [EvStatusSet (message_key sample_message) st; settle]
    /\ count is_settlement pre = 0
    /\ getStatus (message_key sample_message) w' = Some st
    /\ settle = EvAck sample_message
    /\ st = Completed completed_message (question_and_answer sample_cards).
Proof.
  destruct (handled_message_settled_once sample_oracle sample_message
              ready_world 1 eq_refl)
    as (pre & st & settle & H1 & H2 & H3 & H4 & _).
  exists pre, st, settle.
  split; [exact H1|]. split; [exact H2|]. split; [exact H3|].
  destruct (H4 eq_refl eq_refl) as (E1 & _ & p & cards & Ep & Eg & E2).
  split; [exact E1|].
  injection Ep as <-. injection Eg as <-. exact E2.
Defined.

Lemma inserted_step id fields ok evs :
  omap inserted (EvUuid id :: EvInsert fields ok :: evs)
  = (if ok then [fields] else []) ++ omap inserted evs.
Proof. destruct ok; reflexivity. Qed.

Lemma is_insert_step id fields ok evs :
  count is_insert (EvUuid id :: EvInsert fields ok :: evs)
  = S (count is_insert evs).
Proof. reflexivity. Qed.

Lemma insert_events_until_failure o p cards : forall k0 k,
  k < length cards ->
  (forall i, i < k -> o_insert o (k0 + i) = true) ->
  o_insert o (k0 + k) = false ->
  omap inserted (insert_events o p k0 cards)
  = imap (fun i c => cardFields (o_uuid o (k0 + i)) c p) (take k cards)
  /\ count is_insert (insert_events o p k0 cards) = S k
  /\ inserts_succeed o k0 cards = false.
Proof.
  induction cards as [|c rest IH]; intros k0 k Hk Hbefore Hfail;
    [simpl in Hk; lia|].
  destruct k as [|k].
  - rewrite Nat.add_0_r in Hfail. simpl. rewrite Hfail. repeat split.
  - assert (o_insert o k0 = true) as H0
      by (rewrite <- (Nat.add_0_r k0); apply Hbefore; lia).
    destruct (IH (S k0) k) as (E1 & E2 & E3).
    + simpl in Hk. lia.
    + intros i Hi. replace (S k0 + i) with (k0 + S i) by lia.
      apply Hbefore. lia.
    + replace (S k0 + k) with (k0 + S k) by lia. exact Hfail.
    + cbn [insert_events inserts_succeed]. rewrite H0.
      rewrite inserted_step, is_insert_step, E1, E2, E3.
      split; [|split; reflexivity].
      cbn [take imap app]. rewrite Nat.add_0_r. f_equal.
      apply imap_ext. intros i x _. simpl.
      replace (S (k0 + i)) with (k0 + S i) by lia. reflexivity.
Qed.

Lemma insert_events_no_ack o p k cards :
  count is_ack (insert_events o p k cards) = 0.
Proof.
  apply count_none. eapply Forall_impl; [apply insert_events_kinds|].
  intros [] H; try contradiction; reflexivity.
Qed.

(** X2. When the insert of the card at position k rejects after the
    inserts before it resolved, the rows of the first k cards have been
    inserted, in list order, and stay: the handler has tried k + 1 inserts
    and no more, has not acked, and ends with the error log, the write of
    the failed status and nack(message, false, false), which goes through
    when the channel is still open and throws when it has closed. *)
Theorem failed_insert_keeps_earlier_rows o m w ch p cards k :
  channel w = Some ch ->
  msg_content m = BodyPayload p ->
  o_generate o (generateInput p) = Some cards ->
  k < length cards ->
  (forall i, i < k -> o_insert o i = true) ->
  o_insert o k = false ->
  let w' := exec (handleMessage o m) w in
  exists pre,
    trace w'
    = trace w ++ pre
      ++ [ EvConsoleError InsertError;
           EvStatusSet (jobId p) (Failed failed_message);
           if o_channel_closes o
           then EvNackThrew m false false
           else EvNack m false false ]
    /\ omap inserted pre
       = imap (fun i c => cardFields (o_uuid o i) c p) (take k cards)
    /\ count is_insert pre = S k
    /\ count is_ack pre = 0
    /\ getStatus (jobId p) w' = Some (Failed failed_message).
Proof.
  intros Hch Hb Hg Hk Hbefore Hfail w'. subst w'.
  destruct (insert_events_until_failure o p cards 0 k Hk Hbefore Hfail)
    as (E1 & E2 & E3).
  unfold exec. rewrite (handleMessage_spec o m w ch Hch). cbn [snd].
  exists ([ EvStatusSet (jobId p) (Processing processing_message);
            EvGenerate (generateInput p) true ]
          ++ insert_events o p 0 cards).
  assert (handler_events o m
          = ([ EvStatusSet (jobId p) (Processing processing_message);
               EvGenerate (generateInput p) true ]
             ++ insert_events o p 0 cards)
            ++ [ EvConsoleError InsertError;
                 EvStatusSet (jobId p) (Failed failed_message);
                 if o_channel_closes o
                 then EvNackThrew m false false
                 else EvNack m false false ]) as ->.
  { unfold handler_events. rewrite Hb, Hg, E3. rewrite <- app_assoc.
    reflexivity. }
  split; [rewrite trace_apply_events, <- app_assoc; reflexivity|].
  split; [rewrite omap_app, E1; reflexivity|].
  split; [rewrite count_app, E2; reflexivity|].
  split; [rewrite count_app, insert_events_no_ack; reflexivity|].
  unfold getStatus. rewrite apply_events_app.
  destruct (o_channel_closes o); simpl; apply lookup_insert_eq.
Qed.

Lemma failed_insert_keeps_earlier_rows_witness :
  let w' := exec (handleMessage failing_insert_oracle sample_message)
              ready_world in
  exists pre,
    trace w'
    = trace ready_world ++ pre
      ++ [ EvConsoleError InsertError;
           EvStatusSet (jobId sample_payload) (Failed failed_message);
           if o_channel_closes failing_insert_oracle
           then EvNackThrew sample_message false false
           else EvNack sample_message false false ]
    /\ omap inserted pre
       = imap (fun i c => cardFields (o_uuid failing_insert_oracle i) c
                            sample_payload)
           (take 1 sample_cards)
    /\ count is_insert pre = 2
    /\ count is_ack pre = 0
    /\ getStatus (jobId sample_payload) w' = Some (Failed failed_message).
Proof.
  apply (failed_insert_keeps_earlier_rows failing_insert_oracle sample_message
           ready_world 1 sample_payload sample_cards 1).
  - reflexivity.
  - reflexivity.
  - reflexivity.
  - simpl. lia.
  - intros i Hi. assert (i = 0) as -> by lia. reflexivity.
  - reflexivity.
Defined.

(** ** One call and the status map *)

Lemma status_log_failure k o m e :
  k <> message_key m ->
  msg_content m = BodyInvalid e ->
  forall err, status_log k (failure_events o m None err) = [].
Proof.
  intros Hk Hb err. unfold message_key, payload_of in Hk. rewrite Hb in Hk.
  rewrite status_log_failure_events.
  destruct (decide (failureKey None m = k)) as [E|]; [congruence | reflexivity].
Qed.

Lemma handleMessage_other_keys o m w k :
  k <> message_key m ->
  getStatus k (exec (handleMessage o m) w) = getStatus k w.
Proof.
  intros Hk. destruct (channel w) as [ch|] eqn:Hch.
  - unfold exec. rewrite (handleMessage_spec o m w ch Hch). simpl.
    apply statuses_untouched.
    destruct (msg_content m) as [p|text] eqn:Hb.
    + rewrite (status_log_handler k o m p Hb).
      unfold message_key, payload_of in Hk. rewrite Hb in Hk. simpl in Hk.
      destruct (decide (jobId p = k)); [congruence | reflexivity].
    + unfold handler_events. rewrite Hb.
      apply (status_log_failure k o m text Hk Hb).
  - unfold exec. rewrite (handleMessage_returns_at_once o m w Hch). reflexivity.
Qed.

Lemma run_call_other_keys c w k :
  call_key c w <> Some k ->
  getStatus k (run_call c w) = getStatus k w.
Proof.
  intros Hk. destruct c as [o | o input | o | o i | o]; simpl in *.
  - unfold getStatus. destruct (init_frame o w) as (_ & -> & _). reflexivity.
  - destruct (enqueue_spec o input w) as (_ & H).
    unfold getStatus.
    destruct (channel_ready o w).
    + destruct H as (-> & _). apply lookup_insert_ne. congruence.
    + destruct H as (-> & _). reflexivity.
  - unfold getStatus. destruct (startConsumer_frame o w) as (_ & -> & _).
    reflexivity.
  - destruct (broker_queue w !! i) as [m|]; [|reflexivity].
    destruct (subscribed w); [|reflexivity].
    rewrite handleMessage_other_keys; [reflexivity|].
    simpl in Hk. congruence.
  - reflexivity.
Qed.

(** X3. A call changes the status map at one key at most: [init] and
    [startConsumer] at none, [enqueue] at the identifier the generator
    hands it, a delivery at the key of the delivered message.  The status
    of every other job reads as before the call. *)
Theorem call_leaves_other_statuses c w k :
  call_key c w <> Some k ->
  getStatus k (run_call c w) = getStatus k w.
Proof. apply run_call_other_keys. Qed.

Lemma call_leaves_other_statuses_witness :
  getStatus "job-1"
    (run_call (CallEnqueue second_submit_oracle sample_input)
       (exec (enqueue submit_oracle sample_input) initial_world))
  = getStatus "job-1" (exec (enqueue submit_oracle sample_input) initial_world).
Proof.
  apply (call_leaves_other_statuses
           (CallEnqueue second_submit_oracle sample_input)
           (exec (enqueue submit_oracle sample_input) initial_world) "job-1").
  simpl. discriminate.
Defined.

(** ** From submission to delivery *)

Lemma enqueue_ok_ready o input w j w1 :
  enqueue o input w = (Ok j, w1) ->
  channel_ready o w = true /\ o_channel_closes o = false
  /\ j = o_uuid o 0 /\ w1 = exec (enqueue o input) w.
Proof.
  intros Hrun. destruct (enqueue_spec o input w) as (_ & H).
  rewrite Hrun in H. simpl in H.
  destruct (channel_ready o w).
  - destruct H as (_ & H). destruct (o_channel_closes o).
    + destruct H as (_ & H). discriminate.
    + destruct H as (_ & H).
      destruct (isConsuming w || o_consume o); [|discriminate].
      injection H as ->. repeat split. unfold exec. rewrite Hrun. reflexivity.
  - destruct H as (_ & _ & e & H). discriminate.
Qed.

Lemma ready_has_channel o input w :
  channel_ready o w = true -> has_channel (exec (enqueue o input) w) = true.
Proof.
  intros H. destruct (enqueue_fields o input w) as (-> & _).
  unfold channel_ready, has_channel in *.
  destruct (channel w); [reflexivity|].
  destruct (o_connect o), (o_createChannel o); try discriminate; reflexivity.
Qed.

(** Every status the handler writes goes under the message's key. *)
Lemma handler_events_one_key o m :
  Forall (fun e => match e with
                   | EvStatusSet k _ => k = message_key m
                   | _ => True
                   end) (handler_events o m).
Proof.
  unfold handler_events, message_key, payload_of, completion_events,
    failure_events.
  destruct (msg_content m) as [p|text]; cbn [failureKey closed_in_catch].
  - constructor; [reflexivity|].
    destruct (o_generate o (generateInput p)) as [cards|].
    + constructor; [exact I|]. apply Forall_app. split.
      * eapply Forall_impl; [apply insert_events_kinds|].
        intros [] H; try contradiction; exact I.
      * destruct (inserts_succeed o 0 cards), (o_channel_closes o);
          repeat constructor.
    + destruct (o_channel_closes o); repeat constructor.
  - repeat constructor.
Qed.

Lemma final_status_terminal o m :
  state (final_status o m) = completed \/ state (final_status o m) = failed.
Proof.
  unfold final_status.
  destruct (msg_content m) as [p|text]; [|right; reflexivity].
  destruct (o_generate o (generateInput p)) as [cards|]; [|right; reflexivity].
  destruct (inserts_succeed o 0 cards && negb (o_channel_closes o));
    [left | right]; reflexivity.
Qed.

(** X4. The message a successful [enqueue] leaves at the end of the
    broker's queue carries the submitted job: handling it, whatever the
    collaborators answer, records processing under the returned identifier,
    calls the pipeline with the submitted deck name, subject, content, goal
    and tone, writes every status under the returned identifier and
    nowhere else, leaves a terminal status there, and every row it inserts
    carries the submitted user and deck identifiers. *)
Theorem delivered_job_is_the_submitted_one o input w j w1 o' :
  enqueue o input w = (Ok j, w1) ->
  let w2 := exec (handleMessage o' (published input j)) w1 in
  exists ch ok rest,
    channel w1 = Some ch
    /\ last (broker_queue w1) = Some (published input j)
    /\ trace w2
       = trace w1
         ++ EvStatusSet j (Processing processing_message)
         :: EvGenerate {| gi_deckName := in_deckName input;
                          gi_deckSubject := in_deckSubject input;
                          gi_content := in_content input;
                          gi_goal := in_goal input;
                          gi_tone := in_tone input |} ok
         :: rest
    /\ (forall k s, In (EvStatusSet k s) rest -> k = j)
    /\ (exists s, getStatus j w2 = Some s
                  /\ (state s = completed \/ state s = failed))
    /\ (forall k, k <> j -> getStatus k w2 = getStatus k w1)
    /\ forall fields inserted_ok,
         In (EvInsert fields inserted_ok) rest ->
         field "user_id" fields = Some (VString (in_userId input))
         /\ field "deck_id" fields = Some (VString (in_deckId input)).
Proof.
  intros Hrun w2. subst w2.
  destruct (enqueue_ok_ready o input w j w1 Hrun) as (Hr & Hopen & -> & ->).
  pose proof (ready_has_channel o input w Hr) as Hch.
  unfold has_channel in Hch.
  destruct (channel (exec (enqueue o input) w)) as [ch|] eqn:Ech;
    [|discriminate].
  destruct (enqueue_spec o input w) as (_ & H). rewrite Hr, Hopen in H.
  destruct H as (_ & Hq & _).
  set (m := published input (o_uuid o 0)).
  set (p := withJobId input (o_uuid o 0)).
  assert (message_key m = o_uuid o 0) as Hkey by reflexivity.
  assert (exists ok rest,
            handler_events o' m
            = EvStatusSet (o_uuid o 0) (Processing processing_message)
              :: EvGenerate (generateInput p) ok :: rest
            /\ forall fields inserted_ok,
                 In (EvInsert fields inserted_ok) rest ->
                 exists id card, fields = cardFields id card p) as Hev.
  { unfold handler_events, completion_events, failure_events. subst m p.
    simpl.
    destruct (o_generate o' _) as [cards|].
    - eexists. eexists. split; [reflexivity|].
      intros fields iok Hin. apply in_app_or in Hin as [Hin | Hin].
      + destruct (insert_events_rows _ _ _ _ _ _ Hin) as (id & card & _ & E).
        eauto.
      + exfalso.
        destruct (inserts_succeed o' 0 cards), (o_channel_closes o');
          repeat (destruct Hin as [Hin | Hin]; [discriminate|]); destruct Hin.
    - eexists. eexists. split; [reflexivity|].
      intros fields iok Hin.
      exfalso. destruct (o_channel_closes o');
        repeat (destruct Hin as [Hin | Hin]; [discriminate|]); destruct Hin. }
  destruct Hev as (ok & rest & Hev & Hrows).
  exists ch, ok, rest. split; [reflexivity|].
  split; [rewrite Hq; apply last_snoc|].
  assert (exec (handleMessage o' m) (exec (enqueue o input) w)
          = apply_events (handler_events o' m) (exec (enqueue o input) w))
    as Hw2.
  { unfold exec at 1. rewrite (handleMessage_spec o' m _ ch Ech). reflexivity. }
  rewrite Hw2.
  split; [rewrite trace_apply_events, Hev; reflexivity|].
  split.
  { intros k s Hin. pose proof (handler_events_one_key o' m) as Hall.
    rewrite Hev, Forall_forall in Hall.
    rewrite <- Hkey. apply (Hall (EvStatusSet k s)).
    apply list_elem_of_In. right. right. exact Hin. }
  split.
  { exists (final_status o' m). split; [|apply final_status_terminal].
    destruct (handler_events_shape o' m) as (pre & -> & _).
    rewrite <- Hkey. apply final_status_read, last_call_not_a_write. }
  split.
  { intros k Hk. rewrite <- Hw2. apply handleMessage_other_keys.
    rewrite Hkey. exact Hk. }
  intros fields iok Hin. destruct (Hrows fields iok Hin) as (id & card & ->).
  split; reflexivity.
Qed.

Lemma delivered_job_is_the_submitted_one_witness :
  let w1 := exec (enqueue submit_oracle sample_input) initial_world in
  let w2 := exec (handleMessage sample_oracle
                    (published sample_input "job-1")) w1 in
  exists ch ok rest,
    channel w1 = Some ch
    /\ last (broker_queue w1) = Some (published sample_input "job-1")
    /\ trace w2
       = trace w1
         ++ EvStatusSet "job-1" (Processing processing_message)
         :: EvGenerate {| gi_deckName := in_deckName sample_input;
                          gi_deckSubject := in_deckSubject sample_input;
                          gi_content := in_content sample_input;
                          gi_goal := in_goal sample_input;
                          gi_tone := in_tone sample_input |} ok
         :: rest
    /\ (forall k s, In (EvStatusSet k s) rest -> k = "job-1")
    /\ (exists s, getStatus "job-1" w2 = Some s
                  /\ (state s = completed \/ state s = failed))
    /\ (forall k, k <> "job-1" -> getStatus k w2 = getStatus k w1)
    /\ forall fields inserted_ok,
         In (EvInsert fields inserted_ok) rest ->
         field "user_id" fields = Some (VString (in_userId sample_input))
         /\ field "deck_id" fields = Some (VString (in_deckId sample_input)).
Proof.
  apply (delivered_job_is_the_submitted_one submit_oracle sample_input
           initial_world "job-1"
           (exec (enqueue submit_oracle sample_input) initial_world)
           sample_oracle).
  vm_compute. reflexivity.
Defined.

(** ** Runs: what a call adds to the trace *)

Lemma subscribed_has_events w w' evs :
  trace w' = trace w ++ evs ->
  subscribed w' = subscribed w || existsb is_subscription evs.
Proof. intros H. unfold subscribed. rewrite H. apply existsb_app. Qed.

Lemma handler_events_kinds o m :
  Forall (fun e => match e with
                   | EvStatusSet _ _ | EvGenerate _ _ | EvUuid _
                   | EvInsert _ _ | EvAck _ | EvNack _ _ _
                   | EvAckThrew _ | EvNackThrew _ _ _
                   | EvConsoleError _ => True
                   | _ => False
                   end) (handler_events o m).
Proof.
  unfold handler_events, completion_events, failure_events.
  destruct (msg_content m) as [p|t]; cbn [closed_in_catch];
    [|repeat constructor].
  constructor; [exact I|].
  destruct (o_generate o (generateInput p)) as [cards|];
    [|destruct (o_channel_closes o); repeat constructor].
  constructor; [exact I|]. apply Forall_app. split.
  - eapply Forall_impl; [apply insert_events_kinds|].
    intros [] H; try contradiction; exact I.
  - destruct (inserts_succeed o 0 cards), (o_channel_closes o);
      repeat constructor.
Qed.

Lemma handler_events_count f o m :
  (forall e, f e = true -> is_setup e = true \/ is_publish e = true) ->
  count f (handler_events o m) = 0.
Proof.
  intros Hf. apply count_none.
  eapply Forall_impl; [apply handler_events_kinds|].
  intros e He. destruct (f e) eqn:E; [|reflexivity].
  destruct (Hf e E) as [H | H]; destruct e; try discriminate; contradiction.
Qed.

(** The trace, the queue and the two flags after any call. *)
Lemma run_call_effect c w :
  (subscribed w = true -> has_channel w = true) ->
  trace (run_call c w) = trace w ++ call_events c w
  /\ (has_channel w = true -> has_channel (run_call c w) = true)
  /\ (isConsuming w = true -> isConsuming (run_call c w) = true).
Proof.
  intros Hsub. destruct c as [o | o input | o | o i | o]; simpl.
  - destruct (init_frame o w) as (Htr & _).
    destruct (init_fields o w) as (Hc & Hi).
    rewrite Htr, Hc, Hi. repeat split; auto.
    intros ->. reflexivity.
  - destruct (enqueue_spec o input w) as (Htr & _).
    destruct (enqueue_fields o input w) as (Hc & Hi).
    rewrite Htr, Hc, Hi. repeat split; intros ->; reflexivity.
  - destruct (startConsumer_frame o w) as (Htr & _).
    destruct (startConsumer_fields o w) as (Hc & Hi).
    rewrite Htr, Hc, Hi. repeat split; intros ->; reflexivity.
  - destruct (broker_queue w !! i) as [m|];
      [|rewrite app_nil_r; repeat split; auto].
    destruct (subscribed w) eqn:Hs; [|rewrite app_nil_r; repeat split; auto].
    rewrite (Hsub eq_refl). simpl.
    pose proof (Hsub eq_refl) as Hch. unfold has_channel in Hch.
    destruct (channel w) as [ch|] eqn:Ech; [|discriminate].
    unfold exec.
    rewrite (handleMessage_spec o m (take_message i w) ch Ech). simpl.
    destruct (apply_events_frame (handler_events o m) (take_message i w))
      as (_ & E2 & E3 & _ & E5).
    unfold has_channel. rewrite E2, E3, E5. simpl. rewrite Ech.
    repeat split; auto.
  - rewrite app_nil_r. repeat split; auto.
Qed.

(** ** A rejected consume *)

Lemma stuck_no_delivery w :
  stuck w -> subscribed w = true -> has_channel w = true.
Proof. intros (_ & H) E. congruence. Qed.

Lemma stuck_call_events c w :
  stuck w ->
  existsb is_subscription (call_events c w) = false
  /\ count is_worker (call_events c w) = 0.
Proof.
  intros (Hcons & Hsub).
  destruct c as [o | o input | o | o i | o]; simpl;
    unfold enqueue_events, consumer_events, setup_events, init_events;
    rewrite ?Hcons, ?Hsub, ?andb_false_r; simpl;
    try (destruct (broker_queue w !! i); split; reflexivity);
    try (split; reflexivity);
    destruct (channel w), (channel_ready o w), (o_connect o),
      (o_createChannel o), (o_assertQueue o), (o_channel_closes o);
    split; reflexivity.
Qed.

(** What stays in a process whose consumer never subscribed: the flag, the
    channel, the queued jobs and their messages. *)
Lemma stuck_run_call c w :
  stuck w ->
  stuck (run_call c w)
  /\ count is_worker (trace (run_call c w)) = count is_worker (trace w)
  /\ (has_channel w = true -> has_channel (run_call c w) = true)
  /\ (forall j, statuses w !! j = Some (Queued queued_message) ->
        statuses (run_call c w) !! j = Some (Queued queued_message))
  /\ (forall m, m ∈ broker_queue w -> m ∈ broker_queue (run_call c w)).
Proof.
  intros Hstuck.
  destruct (run_call_effect c w (stuck_no_delivery w Hstuck))
    as (Htr & Hch & Hcons).
  destruct (stuck_call_events c w Hstuck) as (Hs & Hw).
  pose proof Hstuck as (Hc & Hsub).
  split; [split|split; [|split; [exact Hch|split]]].
  - apply Hcons, Hc.
  - rewrite (subscribed_has_events w _ _ Htr), Hsub, Hs. reflexivity.
  - rewrite Htr, count_app, Hw. lia.
  - intros j Hj. destruct c as [o | o input | o | o i | o]; simpl.
    + destruct (init_frame o w) as (_ & -> & _). exact Hj.
    + destruct (enqueue_spec o input w) as (_ & H).
      destruct (channel_ready o w).
      * destruct H as (-> & _).
        destruct (decide (o_uuid o 0 = j)) as [->|Hne].
        -- apply lookup_insert_eq.
        -- rewrite lookup_insert_ne by exact Hne. exact Hj.
      * destruct H as (-> & _). exact Hj.
    + destruct (startConsumer_frame o w) as (_ & -> & _). exact Hj.
    + rewrite Hsub. destruct (broker_queue w !! i); exact Hj.
    + exact Hj.
  - intros m Hm. destruct c as [o | o input | o | o i | o]; simpl.
    + destruct (init_frame o w) as (_ & _ & ->). exact Hm.
    + destruct (enqueue_spec o input w) as (_ & H).
      destruct (channel_ready o w).
      * destruct H as (_ & H).
        destruct (o_channel_closes o); destruct H as (-> & _);
          [exact Hm | apply elem_of_app; left; exact Hm].
      * destruct H as (_ & -> & _). exact Hm.
    + destruct (startConsumer_frame o w) as (_ & _ & ->). exact Hm.
    + rewrite Hsub. destruct (broker_queue w !! i); exact Hm.
    + exact Hm.
Qed.

Lemma stuck_run_calls calls : forall w,
  stuck w ->
  stuck (run_calls calls w)
  /\ count is_worker (trace (run_calls calls w)) = count is_worker (trace w)
  /\ (has_channel w = true -> has_channel (run_calls calls w) = true)
  /\ (forall j, statuses w !! j = Some (Queued queued_message) ->
        statuses (run_calls calls w) !! j = Some (Queued queued_message))
  /\ (forall m, m ∈ broker_queue w -> m ∈ broker_queue (run_calls calls w)).
Proof.
  induction calls as [|c calls IH]; intros w H; [auto 6|].
  destruct (stuck_run_call c w H) as (H1 & H2 & H3 & H4 & H5).
  destruct (IH _ H1) as (G1 & G2 & G3 & G4 & G5). simpl.
  split; [exact G1|]. split; [congruence|]. split; [auto|].
  split; [intros j Hj; apply G4, H4, Hj | intros m Hm; apply G5, H5, Hm].
Qed.

(** A submission in such a process while the channel is open: recorded,
    published, returned. *)
Lemma stuck_enqueue o input w :
  stuck w -> has_channel w = true -> o_channel_closes o = false ->
  let w1 := exec (enqueue o input) w in
  stuck w1
  /\ has_channel w1 = true
  /\ fst (enqueue o input w) = Ok (o_uuid o 0)
  /\ getStatus (o_uuid o 0) w1 = Some (Queued queued_message)
  /\ published input (o_uuid o 0) ∈ broker_queue w1
  /\ count is_worker (trace w1) = count is_worker (trace w).
Proof.
  intros Hstuck Hch Hopen w1.
  destruct (stuck_run_call (CallEnqueue o input) w Hstuck)
    as (H1 & H2 & H3 & _).
  change (run_call (CallEnqueue o input) w) with w1 in H1, H2, H3.
  destruct (enqueue_spec o input w) as (_ & H).
  assert (channel_ready o w = true) as Hr.
  { unfold channel_ready. unfold has_channel in Hch.
    destruct (channel w); [reflexivity | discriminate]. }
  rewrite Hr, Hopen in H. destruct H as (Hst & Hq & Hres).
  destruct Hstuck as (Hc & _). rewrite Hc in Hres.
  fold w1 in Hst, Hq.
  split; [exact H1|]. split; [apply H3, Hch|]. split; [exact Hres|].
  split; [unfold getStatus; rewrite Hst; apply lookup_insert_eq|].
  split; [rewrite Hq; apply elem_of_app; right; apply list_elem_of_singleton;
          reflexivity|].
  exact H2.
Qed.

(** X5. When the consume call of the first subscription rejects,
    [enqueue] rejects after it has recorded and published the job, and
    the flag [isConsuming] stays set.  From then on no call subscribes
    again and the handler never runs: that job, and every job submitted
    later while the channel is open, which [enqueue] records, publishes
    and returns normally, reads as queued after any further calls, its
    message still in the broker's queue. *)
Theorem rejected_consume_is_never_retried o input w later o' input' later' :
  isConsuming w = false ->
  subscribed w = false ->
  channel_ready o w = true ->
  o_channel_closes o = false ->
  o_consume o = false ->
  o_channel_closes o' = false ->
  let w1 := exec (enqueue o input) w in
  let w2 := run_calls later w1 in
  let w3 := exec (enqueue o' input') w2 in
  let w4 := run_calls later' w3 in
  fst (enqueue o input w) = Throw ConsumeError
  /\ isConsuming w1 = true
  /\ subscribed w4 = false
  /\ count is_worker (trace w4) = count is_worker (trace w)
  /\ getStatus (o_uuid o 0) w4 = Some (Queued queued_message)
  /\ published input (o_uuid o 0) ∈ broker_queue w4
  /\ fst (enqueue o' input' w2) = Ok (o_uuid o' 0)
  /\ getStatus (o_uuid o' 0) w4 = Some (Queued queued_message)
  /\ published input' (o_uuid o' 0) ∈ broker_queue w4.
Proof.
  intros Hc Hs Hr Hopen Hconsume Hopen' w1 w2 w3 w4.
  destruct (enqueue_spec o input w) as (Htr & H). rewrite Hr, Hopen in H.
  destruct H as (Hst & Hq & Hres). rewrite Hc, Hconsume in Hres.
  destruct (enqueue_fields o input w) as (_ & Hi).
  unfold publishes in Hi. rewrite Hc, Hr, Hopen in Hi.
  fold w1 in Htr, Hst, Hq, Hi.
  assert (existsb is_subscription (enqueue_events o input w) = false
          /\ count is_worker (enqueue_events o input w) = 0) as (He & Hw).
  { unfold enqueue_events, setup_events, init_events.
    rewrite Hr, Hc, Hconsume, Hopen.
    destruct (channel w), (o_connect o), (o_createChannel o),
      (o_assertQueue o); split; reflexivity. }
  assert (stuck w1) as Hstuck1.
  { split; [exact Hi|].
    rewrite (subscribed_has_events w w1 _ Htr), Hs, He. reflexivity. }
  assert (has_channel w1 = true) as Hch1 by apply (ready_has_channel o input w Hr).
  assert (getStatus (o_uuid o 0) w1 = Some (Queued queued_message)) as Hget1
    by (unfold getStatus; rewrite Hst; apply lookup_insert_eq).
  assert (published input (o_uuid o 0) ∈ broker_queue w1) as Hin1.
  { rewrite Hq. apply elem_of_app. right. apply list_elem_of_singleton.
    reflexivity. }
  destruct (stuck_run_calls later w1 Hstuck1)
    as (Hstuck2 & G2 & Hch2 & Hst2 & Hq2).
  fold w2 in Hstuck2, G2, Hch2, Hst2, Hq2.
  destruct (stuck_enqueue o' input' w2 Hstuck2 (Hch2 Hch1) Hopen')
    as (Hstuck3 & Hch3 & Hres3 & Hget3 & Hin3 & G3).
  destruct (stuck_run_call (CallEnqueue o' input') w2 Hstuck2)
    as (_ & _ & _ & Hst3 & Hq3).
  change (run_call (CallEnqueue o' input') w2) with w3 in Hst3, Hq3.
  fold w3 in Hstuck3, Hch3, Hget3, Hin3, G3.
  destruct (stuck_run_calls later' w3 Hstuck3)
    as ((_ & Hsub4) & G4 & _ & Hst4 & Hq4).
  fold w4 in Hsub4, G4, Hst4, Hq4.
  split; [exact Hres|]. split; [exact Hi|]. split; [exact Hsub4|].
  split; [rewrite G4, G3, G2, Htr, count_app, Hw; lia|].
  split; [apply Hst4, Hst3, Hst2, Hget1|].
  split; [apply Hq4, Hq3, Hq2, Hin1|].
  split; [exact Hres3|].
  split; [apply Hst4, Hget3 | apply Hq4, Hin3].
Qed.

Lemma rejected_consume_is_never_retried_witness :
  let w1 := exec (enqueue consume_refused sample_input) initial_world in
  let w2 := run_calls [CallStartConsumer sample_oracle;
                       Deliver sample_oracle 0] w1 in
  let w3 := exec (enqueue second_submit_oracle sample_input) w2 in
  let w4 := run_calls [Deliver sample_oracle 1] w3 in
  fst (enqueue consume_refused sample_input initial_world) = Throw ConsumeError
  /\ isConsuming w1 = true
  /\ subscribed w4 = false
  /\ count is_worker (trace w4) = count is_worker (trace initial_world)
  /\ getStatus (o_uuid consume_refused 0) w4 = Some (Queued queued_message)
  /\ published sample_input (o_uuid consume_refused 0) ∈ broker_queue w4
  /\ fst (enqueue second_submit_oracle sample_input w2)
     = Ok (o_uuid second_submit_oracle 0)
  /\ getStatus (o_uuid second_submit_oracle 0) w4
     = Some (Queued queued_message)
  /\ published sample_input (o_uuid second_submit_oracle 0) ∈ broker_queue w4.
Proof.
  apply (rejected_consume_is_never_retried consume_refused sample_input
           initial_world
           [CallStartConsumer sample_oracle; Deliver sample_oracle 0]
           second_submit_oracle sample_input [Deliver sample_oracle 1]);
    reflexivity.
Defined.

(** ** A rejected queue declaration *)

Lemma declared_call_events c w :
  has_channel w = true -> count is_declaration (call_events c w) = 0.
Proof.
  intros Hch. unfold has_channel in Hch.
  destruct (channel w) as [ch|] eqn:Ech; [|discriminate].
  destruct c as [o | o input | o | o i | o]; simpl;
    unfold enqueue_events, consumer_events, setup_events, channel_ready;
    rewrite ?Ech; simpl; try reflexivity.
  - destruct (o_channel_closes o), (isConsuming w); reflexivity.
  - destruct (isConsuming w); reflexivity.
  - destruct (broker_queue w !! i) as [m|]; [|reflexivity].
    destruct (subscribed w && has_channel w); [|reflexivity].
    apply handler_events_count. intros [] E; try discriminate; auto.
Qed.

Lemma with_channel_run_calls calls : forall w,
  has_channel w = true ->
  has_channel (run_calls calls w) = true
  /\ count is_declaration (trace (run_calls calls w))
     = count is_declaration (trace w).
Proof.
  induction calls as [|c calls IH]; intros w H; [auto|].
  destruct (run_call_effect c w (fun _ => H)) as (Htr & Hch & _).
  destruct (IH _ (Hch H)) as (G1 & G2). simpl. split; [exact G1|].
  rewrite G2, Htr, count_app, (declared_call_events c w H). lia.
Qed.

Lemma init_declaration_error o w :
  channel w = None ->
  o_connect o = true -> o_createChannel o = true -> o_assertQueue o = false ->
  fst (init o w) = Throw AssertQueueError.
Proof.
  intros Hch Hc Hcc Ha. destruct w as [cn ch ic st q tr]. simpl in Hch.
  subst ch. unfold init. run_method. rewrite Hc. simpl. rewrite Hcc. simpl.
  rewrite Ha. reflexivity.
Qed.

(** X6. When assertQueue rejects in [init], the channel has already been
    stored: [init] rejects after the three calls of the set-up, and from
    then on every [init] finds the channel set and returns at once without
    a call, so the queue is never declared by any later call, while
    [enqueue], as long as the channel is open, goes on publishing to it. *)
Theorem rejected_declaration_is_never_retried o w later o' input :
  channel w = None ->
  o_connect o = true -> o_createChannel o = true -> o_assertQueue o = false ->
  o_channel_closes o' = false ->
  let w1 := exec (init o) w in
  let w2 := run_calls later w1 in
  fst (init o w) = Throw AssertQueueError
  /\ trace w1 = trace w ++ [ EvConnect connectionString true;
                             EvCreateChannel true;
                             EvAssertQueue queueName true false ]
  /\ has_channel w1 = true
  /\ init o' w2 = (Ok tt, w2)
  /\ count is_declaration (trace w2) = count is_declaration (trace w)
  /\ broker_queue (exec (enqueue o' input) w2)
     = broker_queue w2 ++ [published input (o_uuid o' 0)].
Proof.
  intros Hch Hc Hcc Ha Hopen w1 w2.
  pose proof (init_declaration_error o w Hch Hc Hcc Ha) as Hres.
  destruct (init_frame o w) as (Htr & _).
  destruct (init_fields o w) as (Hf & _).
  fold w1 in Htr, Hf.
  unfold setup_events, init_events in Htr. rewrite Hch, Hc, Hcc, Ha in Htr.
  assert (has_channel w1 = true) as H1
    by (rewrite Hf, Hc, Hcc; apply orb_true_r).
  destruct (with_channel_run_calls later w1 H1) as (G1 & G2). fold w2 in G1, G2.
  split; [exact Hres|]. split; [exact Htr|]. split; [exact H1|].
  unfold has_channel in G1.
  destruct (channel w2) as [ch2|] eqn:Ech2; [|discriminate].
  split; [apply (init_with_channel o' w2 ch2 Ech2)|]. split.
  - rewrite G2, Htr, count_app. unfold count. simpl. lia.
  - destruct (enqueue_spec o' input w2) as (_ & H).
    assert (channel_ready o' w2 = true) as Hr
      by (unfold channel_ready; rewrite Ech2; reflexivity).
    rewrite Hr, Hopen in H. apply H.
Qed.

Lemma rejected_declaration_is_never_retried_witness :
  let w1 := exec (init declaration_refused) initial_world in
  let w2 := run_calls [CallInit sample_oracle] w1 in
  fst (init declaration_refused initial_world) = Throw AssertQueueError
  /\ trace w1 = trace initial_world
                ++ [ EvConnect connectionString true;
                     EvCreateChannel true;
                     EvAssertQueue queueName true false ]
  /\ has_channel w1 = true
  /\ init submit_oracle w2 = (Ok tt, w2)
  /\ count is_declaration (trace w2) = count is_declaration (trace initial_world)
  /\ broker_queue (exec (enqueue submit_oracle sample_input) w2)
     = broker_queue w2 ++ [published sample_input (o_uuid submit_oracle 0)].
Proof.
  apply (rejected_declaration_is_never_retried declaration_refused
           initial_world [CallInit sample_oracle] submit_oracle sample_input);
    reflexivity.
Defined.

(** ** A rejected connection *)

Lemma enqueue_connect_error o input w :
  channel w = None -> o_connect o = false ->
  enqueue o input w
  = (Throw ConnectError, emit (EvConnect connectionString false) w).
Proof.
  intros Hch Hdown. destruct w as [cn ch ic st q tr]. simpl in Hch. subst ch.
  unfold enqueue. run_method. rewrite Hdown. reflexivity.
Qed.

(** X7. A rejected connection leaves nothing behind: [enqueue] rejects
    with the connection error, and the world is the one it started in but
    for the failed connect in the trace, with no identifier drawn, no
    status written and nothing published; the next [enqueue], once the
    broker answers and the channel stays open, sets everything up, records
    and publishes its job, registers the consumer and returns its
    identifier. *)
Theorem rejected_connection_is_retried o_down o_up input1 input2 w :
  channel w = None ->
  isConsuming w = false ->
  o_connect o_down = false ->
  o_connect o_up = true -> o_createChannel o_up = true ->
  o_assertQueue o_up = true -> o_channel_closes o_up = false ->
  o_consume o_up = true ->
  let w1 := exec (enqueue o_down input1) w in
  let w2 := exec (enqueue o_up input2) w1 in
  fst (enqueue o_down input1 w) = Throw ConnectError
  /\ w1 = {| connection := connection w; channel := None;
             isConsuming := false; statuses := statuses w;
             broker_queue := broker_queue w;
             trace := trace w ++ [EvConnect connectionString false] |}
  /\ fst (enqueue o_up input2 w1) = Ok (o_uuid o_up 0)
  /\ trace w2
     = trace w1
       ++ [ EvConnect connectionString true;
            EvCreateChannel true;
            EvAssertQueue queueName true true;
            EvUuid (o_uuid o_up 0);
            EvStatusSet (o_uuid o_up 0) (Queued queued_message);
            EvSendToQueue queueName
              (BodyPayload (withJobId input2 (o_uuid o_up 0))) true;
            EvConsume queueName true ]
  /\ has_channel w2 = true
  /\ subscribed w2 = true
  /\ getStatus (o_uuid o_up 0) w2 = Some (Queued queued_message)
  /\ last (broker_queue w2) = Some (published input2 (o_uuid o_up 0)).
Proof.
  intros Hch Hc Hdown Hu1 Hu2 Hu3 Hopen Hu4 w1 w2.
  pose proof (enqueue_connect_error o_down input1 w Hch Hdown) as Hrun1.
  assert (w1 = emit (EvConnect connectionString false) w) as Hw1
    by (unfold w1, exec; rewrite Hrun1; reflexivity).
  assert (channel w1 = None) as Hch1 by (rewrite Hw1; exact Hch).
  assert (isConsuming w1 = false) as Hi1 by (rewrite Hw1; exact Hc).
  destruct (enqueue_spec o_up input2 w1) as (Htr2 & H2).
  destruct (enqueue_fields o_up input2 w1) as (Hf2 & _).
  assert (channel_ready o_up w1 = true) as Hr2
    by (unfold channel_ready; rewrite Hch1, Hu1, Hu2, Hu3; reflexivity).
  rewrite Hr2, Hopen in H2. destruct H2 as (Hst2 & Hq2 & Hres2).
  rewrite Hu4, orb_true_r in Hres2. rewrite Hu1, Hu2, orb_true_r in Hf2.
  fold w2 in Htr2, Hst2, Hq2, Hf2.
  unfold enqueue_events, setup_events, init_events in Htr2.
  rewrite Hr2, Hch1, Hi1, Hu1, Hu2, Hu3, Hu4, Hopen in Htr2.
  split; [rewrite Hrun1; reflexivity|].
  split; [rewrite Hw1; unfold emit; rewrite Hch, Hc; reflexivity|].
  split; [exact Hres2|]. split; [exact Htr2|]. split; [exact Hf2|].
  split; [|split].
  - unfold subscribed. rewrite Htr2, existsb_app. simpl.
    apply orb_true_r.
  - unfold getStatus. rewrite Hst2. apply lookup_insert_eq.
  - rewrite Hq2. apply last_snoc.
Qed.

Lemma rejected_connection_is_retried_witness :
  let w1 := exec (enqueue unreachable_broker sample_input) initial_world in
  let w2 := exec (enqueue submit_oracle sample_input) w1 in
  fst (enqueue unreachable_broker sample_input initial_world)
  = Throw ConnectError
  /\ w1 = {| connection := connection initial_world; channel := None;
             isConsuming := false; statuses := statuses initial_world;
             broker_queue := broker_queue initial_world;
             trace := trace initial_world
                      ++ [EvConnect connectionString false] |}
  /\ fst (enqueue submit_oracle sample_input w1) = Ok (o_uuid submit_oracle 0)
  /\ trace w2
     = trace w1
       ++ [ EvConnect connectionString true;
            EvCreateChannel true;
            EvAssertQueue queueName true true;
            EvUuid (o_uuid submit_oracle 0);
            EvStatusSet (o_uuid submit_oracle 0) (Queued queued_message);
            EvSendToQueue queueName
              (BodyPayload (withJobId sample_input (o_uuid submit_oracle 0)))
              true;
            EvConsume queueName true ]
  /\ has_channel w2 = true
  /\ subscribed w2 = true
  /\ getStatus (o_uuid submit_oracle 0) w2 = Some (Queued queued_message)
  /\ last (broker_queue w2)
     = Some (published sample_input (o_uuid submit_oracle 0)).
Proof.
  apply (rejected_connection_is_retried unreachable_broker submit_oracle
           sample_input sample_input initial_world); reflexivity.
Defined.

(** ** A publish on a closed channel *)

(** X16. When the channel is there but has closed by the time [enqueue]
    publishes, sendToQueue throws after the identifier has been drawn and
    the queued status written: [enqueue] rejects with that error, nothing
    is published and no consumer is started, and the status map keeps a
    queued entry for a job whose message is not in the queue. *)
Theorem failed_publish_leaves_queued_status o input w :
  channel_ready o w = true ->
  o_channel_closes o = true ->
  let w1 := exec (enqueue o input) w in
  fst (enqueue o input w) = Throw ChannelClosedError
  /\ trace w1
     = trace w ++ setup_events o w
       ++ [ EvUuid (o_uuid o 0);
            EvStatusSet (o_uuid o 0) (Queued queued_message);
            EvSendToQueueThrew queueName
              (BodyPayload (withJobId input (o_uuid o 0))) true ]
  /\ getStatus (o_uuid o 0) w1 = Some (Queued queued_message)
  /\ broker_queue w1 = broker_queue w
  /\ isConsuming w1 = isConsuming w.
Proof.
  intros Hr Hcl w1.
  destruct (enqueue_spec o input w) as (Htr & H). rewrite Hr, Hcl in H.
  destruct H as (Hst & Hq & Hres).
  destruct (enqueue_fields o input w) as (_ & Hi).
  unfold publishes in Hi. rewrite Hr, Hcl, orb_false_r in Hi.
  fold w1 in Htr, Hst, Hq, Hi.
  unfold enqueue_events in Htr. rewrite Hr, Hcl in Htr.
  split; [exact Hres|]. split; [exact Htr|].
  split; [unfold getStatus; rewrite Hst; apply lookup_insert_eq|].
  split; assumption.
Qed.

Lemma failed_publish_leaves_queued_status_witness :
  let w1 := exec (enqueue closing_oracle sample_input) ready_world in
  fst (enqueue closing_oracle sample_input ready_world)
  = Throw ChannelClosedError
  /\ trace w1
     = trace ready_world ++ setup_events closing_oracle ready_world
       ++ [ EvUuid (o_uuid closing_oracle 0);
            EvStatusSet (o_uuid closing_oracle 0) (Queued queued_message);
            EvSendToQueueThrew queueName
              (BodyPayload (withJobId sample_input (o_uuid closing_oracle 0)))
              true ]
  /\ getStatus (o_uuid closing_oracle 0) w1 = Some (Queued queued_message)
  /\ broker_queue w1 = broker_queue ready_world
  /\ isConsuming w1 = isConsuming ready_world.
Proof.
  apply (failed_publish_leaves_queued_status closing_oracle sample_input
           ready_world); reflexivity.
Defined.

(** ** No message is lost *)

Lemma setup_messages evs :
  Forall (fun e => is_setup e = true) evs ->
  published_messages evs = []
  /\ settled_messages evs = []
  /\ abandoned_messages evs = [].
Proof.
  induction 1 as [|e evs He _ (IH1 & IH2 & IH3)]; [repeat split|].
  unfold published_messages, settled_messages, abandoned_messages in *.
  destruct e; try discriminate; simpl; auto.
Qed.

Lemma accounting_step {A} (L P Pe Q Q' S Se Ab Abe : list A) :
  L ++ P ≡ₚ Q ++ S ++ Ab ->
  Q ++ Pe ≡ₚ Q' ++ Se ++ Abe ->
  L ++ P ++ Pe ≡ₚ Q' ++ (S ++ Se) ++ (Ab ++ Abe).
Proof.
  intros H1 H2. rewrite app_assoc, H1.
  transitivity ((Q ++ Pe) ++ S ++ Ab).
  { rewrite <- !app_assoc. f_equiv. rewrite (app_assoc S Ab Pe).
    apply Permutation_app_comm. }
  rewrite H2, <- !app_assoc. f_equiv.
  rewrite (app_assoc Se Abe), (Permutation_app_comm (Se ++ Abe)),
    <- !app_assoc.
  f_equiv. rewrite !app_assoc. f_equiv. apply Permutation_app_comm.
Qed.

(** The messages of the handler's calls: the delivered one, once. *)
Lemma handler_events_messages o m :
  published_messages (handler_events o m) = []
  /\ settled_messages (handler_events o m)
     ++ abandoned_messages (handler_events o m) = [m].
Proof.
  destruct (handler_events_shape o m) as (pre & -> & _ & E1 & E2 & E3).
  unfold published_messages, settled_messages, abandoned_messages in *.
  rewrite !omap_app, E1, E2, E3. unfold last_call.
  destruct (closed_at_settlement o m), (completes o m); split; reflexivity.
Qed.

Lemma call_events_accounted c w :
  (subscribed w = true -> has_channel w = true) ->
  broker_queue w ++ published_messages (call_events c w)
  ≡ₚ broker_queue (run_call c w)
     ++ settled_messages (call_events c w)
     ++ abandoned_messages (call_events c w).
Proof.
  intros Hsub. destruct c as [o | o input | o | o i | o]; simpl.
  - destruct (init_frame o w) as (_ & _ & ->).
    destruct (setup_messages _ (setup_events_setup o w)) as (-> & -> & ->).
    reflexivity.
  - destruct (enqueue_spec o input w) as (_ & H).
    unfold enqueue_events.
    destruct (setup_messages _ (setup_events_setup o w)) as (E1 & E2 & E3).
    unfold published_messages, settled_messages, abandoned_messages in *.
    rewrite !omap_app, E1, E2, E3.
    destruct (channel_ready o w).
    + destruct H as (_ & H).
      destruct (o_channel_closes o); destruct H as (-> & _); [reflexivity|].
      destruct (isConsuming w); simpl; rewrite app_nil_r; reflexivity.
    + destruct H as (_ & -> & _). reflexivity.
  - destruct (startConsumer_frame o w) as (_ & _ & ->).
    destruct (setup_messages _ (consumer_events_setup o w)) as (-> & -> & ->).
    reflexivity.
  - destruct (broker_queue w !! i) as [m|] eqn:Hi; [|reflexivity].
    destruct (subscribed w) eqn:Hs; [|reflexivity].
    rewrite (Hsub eq_refl). simpl.
    pose proof (Hsub eq_refl) as Hch. unfold has_channel in Hch.
    destruct (channel w) as [ch|] eqn:Ech; [|discriminate].
    unfold exec.
    rewrite (handleMessage_spec o m (take_message i w) ch Ech). simpl.
    destruct (apply_events_frame (handler_events o m) (take_message i w))
      as (_ & _ & _ & -> & _).
    destruct (handler_events_messages o m) as (-> & ->).
    simpl. rewrite app_nil_r.
    rewrite (delete_Permutation _ _ _ Hi) at 1.
    apply Permutation_cons_append.
  - reflexivity.
Qed.

Lemma call_events_subscription c w :
  (subscribed w = true -> has_channel w = true) ->
  existsb is_subscription (call_events c w) = true ->
  has_channel (run_call c w) = true.
Proof.
  intros Hsub. destruct c as [o | o input | o | o i | o]; simpl.
  - unfold setup_events, init_events.
    destruct (channel w), (o_connect o), (o_createChannel o); discriminate.
  - destruct (enqueue_fields o input w) as (-> & _).
    unfold enqueue_events, setup_events, init_events, channel_ready,
      has_channel.
    destruct (channel w), (o_connect o), (o_createChannel o),
      (o_assertQueue o), (isConsuming w); simpl; try discriminate; auto.
  - destruct (startConsumer_fields o w) as (-> & _).
    unfold consumer_events, setup_events, init_events, channel_ready,
      has_channel.
    destruct (channel w), (o_connect o), (o_createChannel o),
      (o_assertQueue o), (isConsuming w); simpl; try discriminate; auto.
  - destruct (broker_queue w !! i) as [m|]; [|discriminate].
    destruct (subscribed w && has_channel w); [|discriminate].
    intros H. exfalso.
    assert (count is_subscription (handler_events o m) = 0) as Hc.
    { apply handler_events_count. intros [] E; try discriminate; auto. }
    unfold count in Hc. induction (handler_events o m) as [|e evs IH];
      [discriminate|].
    simpl in *. destruct (is_subscription e); [discriminate|]. auto.
  - discriminate.
Qed.

Lemma run_call_delivery_ok leftover c w :
  delivery_ok leftover w -> delivery_ok leftover (run_call c w).
Proof.
  intros [Hsub Hacc].
  destruct (run_call_effect c w Hsub) as (Htr & Hch & _).
  constructor.
  - rewrite (subscribed_has_events w _ _ Htr). intros H.
    apply orb_true_iff in H as [H | H].
    + apply Hch, Hsub, H.
    + apply (call_events_subscription c w Hsub H).
  - rewrite Htr.
    unfold published_messages, settled_messages, abandoned_messages.
    rewrite !omap_app.
    apply (accounting_step _ _ _ (broker_queue w)); [exact Hacc|].
    apply (call_events_accounted c w Hsub).
Qed.

Lemma run_calls_delivery_ok leftover calls : forall w,
  delivery_ok leftover w -> delivery_ok leftover (run_calls calls w).
Proof.
  induction calls as [|c calls IH]; intros w H; [exact H|].
  simpl. apply IH, run_call_delivery_ok, H.
Qed.

Lemma start_delivery_ok leftover : delivery_ok leftover (process_start leftover).
Proof.
  constructor; [discriminate|]. simpl. rewrite !app_nil_r. reflexivity.
Qed.

(** X8. Whatever the durable queue held when the process started and
    whatever is called, no message is lost and none is counted twice: the
    messages the queue held at the start together with those this process
    has published are, one for one, those still pending in the queue,
    those it has acked or nacked, and those whose handler ended in a nack
    that threw on a closed channel.  And a delivery always finds the
    channel set. *)
Theorem published_messages_accounted leftover calls :
  let w := run_calls calls (process_start leftover) in
  leftover ++ published_messages (trace w)
  ≡ₚ broker_queue w ++ settled_messages (trace w)
     ++ abandoned_messages (trace w)
  /\ (subscribed w = true -> channel w <> None).
Proof.
  intros w.
  destruct (run_calls_delivery_ok leftover calls _ (start_delivery_ok leftover))
    as [Hsub Hacc].
  fold w in Hsub, Hacc. split; [exact Hacc|].
  intros H E. apply Hsub in H. unfold has_channel in H. rewrite E in H.
  discriminate.
Qed.

Lemma published_messages_accounted_witness :
  let w := run_calls [ CallEnqueue submit_oracle sample_input;
                       CallEnqueue second_submit_oracle sample_input;
                       Deliver closing_oracle 1;
                       Deliver sample_oracle 0 ]
             (process_start [garbled_message]) in
  [garbled_message] ++ published_messages (trace w)
  ≡ₚ broker_queue w ++ settled_messages (trace w)
     ++ abandoned_messages (trace w)
  /\ channel w <> None.
Proof.
  intros w.
  destruct (published_messages_accounted [garbled_message]
              [ CallEnqueue submit_oracle sample_input;
                CallEnqueue second_submit_oracle sample_input;
                Deliver closing_oracle 1;
                Deliver sample_oracle 0 ]) as (H1 & H2).
  split; [exact H1|]. apply H2. vm_compute. reflexivity.
Defined.

(** ** Unknown identifiers *)

Lemma enqueue_events_ids o input w :
  submitted_ids (enqueue_events o input w)
  = (if channel_ready o w then [o_uuid o 0] else [])
  /\ published_messages (enqueue_events o input w)
     = (if publishes o w then [published input (o_uuid o 0)] else []).
Proof.
  unfold enqueue_events, publishes.
  destruct (setup_messages _ (setup_events_setup o w)) as (E1 & _).
  assert (submitted_ids (setup_events o w) = []) as E2.
  { unfold setup_events, init_events.
    destruct (channel w), (o_connect o), (o_createChannel o); reflexivity. }
  unfold submitted_ids, published_messages in *.
  rewrite !omap_app, E1, E2.
  destruct (channel_ready o w), (o_channel_closes o), (isConsuming w);
    split; reflexivity.
Qed.

Lemma run_call_known_keys leftover c w :
  delivery_ok leftover w ->
  known_keys leftover w -> known_keys leftover (run_call c w).
Proof.
  intros [Hsub Hacc] [Hk Hp].
  destruct (run_call_effect c w Hsub) as (Htr & _).
  assert (forall j, j ∈ (message_key <$> leftover) ++ submitted_ids (trace w) ->
            j ∈ (message_key <$> leftover)
                ++ submitted_ids (trace (run_call c w))) as Hgrow.
  { intros j Hj. rewrite Htr. unfold submitted_ids. rewrite omap_app.
    apply elem_of_app in Hj as [Hj | Hj]; apply elem_of_app;
      [left; exact Hj | right; apply elem_of_app; left; exact Hj]. }
  constructor.
  - intros j Hj.
    destruct (decide (call_key c w = Some j)) as [Hkey | Hkey].
    2:{ apply Hgrow, Hk.
        pose proof (run_call_other_keys c w j Hkey) as E.
        unfold getStatus in E. rewrite <- E. exact Hj. }
    destruct c as [o | o input | o | o i | o]; simpl in Hkey;
      try discriminate.
    + injection Hkey as <-.
      destruct (enqueue_spec o input w) as (_ & H).
      destruct (enqueue_events_ids o input w) as (E & _).
      destruct (channel_ready o w).
      * rewrite Htr. unfold submitted_ids in *. rewrite omap_app.
        apply elem_of_app. right. apply elem_of_app. right.
        simpl. rewrite E. left.
      * apply Hgrow, Hk. destruct H as (Hst & _).
        simpl in Hj. rewrite Hst in Hj. exact Hj.
    + destruct (broker_queue w !! i) as [m|] eqn:Hi; [|discriminate].
      injection Hkey as <-. apply Hgrow.
      assert (m ∈ leftover ++ published_messages (trace w)) as Hm.
      { rewrite Hacc. apply elem_of_app. left.
        eapply list_elem_of_lookup_2, Hi. }
      apply elem_of_app in Hm as [Hm | Hm]; apply elem_of_app.
      * left. apply list_elem_of_fmap. exists m. auto.
      * right. apply Hp, Hm.
  - intros m Hm. rewrite Htr in Hm |- *.
    unfold published_messages, submitted_ids in Hm |- *.
    rewrite omap_app in Hm. rewrite omap_app.
    apply elem_of_app in Hm as [Hm | Hm]; apply elem_of_app;
      [left; apply Hp, Hm|].
    right. destruct c as [o | o input | o | o i | o]; simpl in Hm |- *.
    + destruct (setup_messages _ (setup_events_setup o w)) as (E & _).
      unfold published_messages in E. rewrite E in Hm. inversion Hm.
    + destruct (enqueue_events_ids o input w) as (E1 & E2).
      unfold published_messages, submitted_ids, publishes in E1, E2.
      rewrite E2 in Hm. rewrite E1.
      destruct (channel_ready o w); [|inversion Hm].
      destruct (o_channel_closes o); [inversion Hm|].
      apply list_elem_of_singleton in Hm. subst m. left.
    + destruct (setup_messages _ (consumer_events_setup o w)) as (E & _).
      unfold published_messages in E. rewrite E in Hm. inversion Hm.
    + destruct (broker_queue w !! i) as [m'|]; [|inversion Hm].
      destruct (subscribed w && has_channel w); [|inversion Hm].
      destruct (handler_events_messages o m') as (E & _).
      unfold published_messages in E. rewrite E in Hm. inversion Hm.
    + inversion Hm.
Qed.

Lemma run_calls_known_keys leftover calls : forall w,
  delivery_ok leftover w ->
  known_keys leftover w -> known_keys leftover (run_calls calls w).
Proof.
  induction calls as [|c calls IH]; intros w Hd Hk; [exact Hk|].
  simpl. apply IH; [apply run_call_delivery_ok, Hd|].
  apply run_call_known_keys; assumption.
Qed.

Lemma start_known_keys leftover : known_keys leftover (process_start leftover).
Proof.
  constructor.
  - intros j Hj. exfalso. apply Hj. apply lookup_empty.
  - intros m Hm. inversion Hm.
Qed.

(** X9. Whatever the durable queue held when the process started and
    whatever is called, [getStatus] answers only for an identifier that an
    [enqueue] of this process drew and recorded as queued, or for the key
    of a message the queue held at the start; for every other key it
    answers undefined. *)
Theorem status_only_for_submitted_jobs leftover calls j :
  let w := run_calls calls (process_start leftover) in
  j ∉ submitted_ids (trace w) ->
  j ∉ message_key <$> leftover ->
  getStatus j w = None.
Proof.
  intros w Hj Hl.
  destruct (run_calls_known_keys leftover calls _
              (start_delivery_ok leftover) (start_known_keys leftover))
    as [Hk _].
  fold w in Hk. unfold getStatus.
  destruct (statuses w !! j) eqn:E; [|reflexivity].
  exfalso.
  assert (j ∈ (message_key <$> leftover) ++ submitted_ids (trace w)) as Hin
    by (apply Hk; rewrite E; discriminate).
  apply elem_of_app in Hin as [Hin | Hin]; [apply Hl, Hin | apply Hj, Hin].
Qed.

Lemma status_only_for_submitted_jobs_witness :
  getStatus "job"
    (run_calls [ CallEnqueue unreachable_broker sample_input;
                 CallEnqueue submit_oracle sample_input;
                 Deliver sample_oracle 0 ] (process_start [garbled_message]))
  = None.
Proof.
  apply (status_only_for_submitted_jobs [garbled_message]
           [ CallEnqueue unreachable_broker sample_input;
             CallEnqueue submit_oracle sample_input;
             Deliver sample_oracle 0 ] "job").
  - intros H. apply list_elem_of_In in H. vm_compute in H.
    destruct H as [H | []]. discriminate.
  - intros H. apply list_elem_of_In in H. vm_compute in H.
    destruct H as [H | []]. discriminate.
Defined.

(** ** The generate route *)

(** X10. [normalizeTone] gives back each of the three tones, "standard"
    included through its last line, and for any value it either answers
    "standard" or the value is the very string of the tone it answers. *)
Theorem normalizeTone_gives_tones_back t v :
  Decks.normalizeTone (Decks.JsString (Decks.tone_string t)) = t
  /\ (Decks.normalizeTone v = standard
      \/ v = Decks.JsString (Decks.tone_string (Decks.normalizeTone v))).
Proof.
  split.
  - destruct t; reflexivity.
  - destruct v as [| | b | n | s]; try (left; reflexivity).
    unfold Decks.normalizeTone.
    destruct (decide (s = "concise")) as [->|]; [right; reflexivity|].
    destruct (decide (s = "deep")) as [->|]; [right; reflexivity|].
    left. reflexivity.
Qed.

Lemma controller_insertCards_eq o p cards : forall k w,
  Controller.insertCards o (userId p) (deckId p) k cards w
  = insertCards o p k cards w.
Proof.
  induction cards as [|c rest IH]; intros k w; [reflexivity|].
  cbn [Controller.insertCards insertCards]. unfold bind.
  destruct (uuid_generate o k w) as [[id|e] w1]; [|reflexivity].
  rewrite (controller_rows_same_shape id c p).
  destruct (flashcard_insert o k (cardFields id c p) w1) as [[[]|e] w2];
    [apply IH | reflexivity].
Qed.

(** X11. The insert loop of the controller and the insert loop of the
    handler are the same computation: for the user and deck of a payload
    they make the same calls in the same order, stop at the same rejected
    insert with the same error, and leave the same world. *)
Theorem controller_loop_is_handler_loop o p cards k w :
  Controller.insertCards o (userId p) (deckId p) k cards w
  = insertCards o p k cards w.
Proof. apply controller_insertCards_eq. Qed.

Lemma controller_insertCards_spec o u d cards k w :
  exists evs,
    Controller.insertCards o u d k cards w
    = (if inserts_succeed o k cards then Ok tt else Throw InsertError,
       apply_events evs w).
Proof.
  set (p := {| jobId := ""; deckId := d; deckName := ""; deckSubject := "";
               userId := u; content := ""; goal := None; tone := None |}).
  exists (insert_events o p k cards).
  rewrite <- insertCards_spec. apply (controller_insertCards_eq o p).
Qed.

Lemma generateCardsWithFallback_spec o input w :
  Controller.generateCardsWithFallback o input w
  = match o_generate o input with
    | Some (c :: cards) => (Ok (c :: cards), emit (EvGenerate input true) w)
    | Some [] =>
        (Throw (JsError "Erro ao gerar flashcards."),
         emit (EvGenerate input true) w)
    | None => (Throw GenerateError, emit (EvGenerate input false) w)
    end.
Proof.
  unfold Controller.generateCardsWithFallback, generateCards, bind.
  destruct (o_generate o input) as [[|c cards]|]; reflexivity.
Qed.

(** What the route answers, case by case. *)
Lemma handleGenerateCards_cases o found u d validated w :
  match found with
  | Throw e =>
      fst (Decks.handleGenerateCards o found u d validated w)
      = Ok {| Decks.status := 500; Decks.body := Decks.Alert Decks.failure_alert |}
  | Ok None =>
      Decks.handleGenerateCards o found u d validated w
      = (Ok {| Decks.status := 404;
               Decks.body := Decks.Alert Decks.not_found_alert |}, w)
  | Ok (Some deck) =>
      match o_generate o (Decks.pipelineInput deck validated) with
      | Some (c :: cards) =>
          fst (Decks.handleGenerateCards o found u d validated w)
          = Ok (if inserts_succeed o 0 (c :: cards)
                then {| Decks.status := 201;
                        Decks.body :=
                          Decks.CardPreview (Decks.deck_id deck) (c :: cards) |}
                else {| Decks.status := 500;
                        Decks.body := Decks.Alert Decks.failure_alert |})
      | _ =>
          fst (Decks.handleGenerateCards o found u d validated w)
          = Ok {| Decks.status := 500;
                  Decks.body := Decks.Alert Decks.failure_alert |}
          /\ count is_insert
               (trace (exec (Decks.handleGenerateCards o found u d validated) w))
             = count is_insert (trace w)
      end
  end.
Proof.
  unfold Decks.handleGenerateCards, try_catch, bind, exec,
    Decks.ensureDeckBelongsToUser.
  destruct found as [[deck|]|e]; [|reflexivity|reflexivity].
  unfold ret. cbv beta iota.
  rewrite generateCardsWithFallback_spec.
  destruct (o_generate o (Decks.pipelineInput deck validated)) as [[|c cards]|];
    cbv beta iota.
  - split; [reflexivity|]. cbn -[count]. rewrite !count_app.
    unfold count. simpl. lia.
  - destruct (controller_insertCards_spec o u d (c :: cards) 0
                (emit (EvGenerate (Decks.pipelineInput deck validated) true) w))
      as (evs & ->).
    destruct (inserts_succeed o 0 (c :: cards)); reflexivity.
  - split; [reflexivity|]. cbn -[count]. rewrite !count_app.
    unfold count. simpl. lia.
Qed.

(** X12. The generate route always answers, with 201, 404 or 500.  It
    answers 201, with the preview of the generated cards, exactly when the
    deck is found, the pipeline answers at least one card and every insert
    resolves; it answers 404 exactly when the lookup resolves to no deck,
    and then it has called nothing; a rejected lookup, a rejected pipeline,
    an empty answer or a rejected insert gives 500. *)
Theorem generate_route_answers o found u d validated w :
  exists response,
    fst (Decks.handleGenerateCards o found u d validated w) = Ok response
    /\ (Decks.status response = 201 \/ Decks.status response = 404
        \/ Decks.status response = 500)
    /\ (Decks.status response = 201 <->
        exists deck cards,
          found = Ok (Some deck)
          /\ o_generate o (Decks.pipelineInput deck validated) = Some cards
          /\ cards <> []
          /\ inserts_succeed o 0 cards = true
          /\ Decks.body response = Decks.CardPreview (Decks.deck_id deck) cards)
    /\ (Decks.status response = 404 <-> found = Ok None)
    /\ (found = Ok None ->
        exec (Decks.handleGenerateCards o found u d validated) w = w).
Proof.
  pose proof (handleGenerateCards_cases o found u d validated w) as H.
  destruct found as [[deck|]|e].
  - destruct (o_generate o (Decks.pipelineInput deck validated))
      as [[|c cards]|] eqn:Hg.
    + destruct H as (H & _). eexists. split; [exact H|]. simpl.
      split; [auto|]. split; [|split; [|discriminate]].
      * split; [discriminate|].
        intros (deck' & cards' & E & Hg' & Hne & _). injection E as <-.
        rewrite Hg in Hg'. injection Hg' as <-. contradiction.
      * split; discriminate.
    + eexists. split; [exact H|].
      destruct (inserts_succeed o 0 (c :: cards)) eqn:Hi; simpl.
      * split; [auto|]. split; [|split; [|discriminate]].
        -- split; [|reflexivity]. intros _. exists deck, (c :: cards).
           repeat split; auto; try discriminate.
        -- split; discriminate.
      * split; [auto|]. split; [|split; [|discriminate]].
        -- split; [discriminate|].
           intros (deck' & cards' & E & Hg' & _ & Hi' & _). injection E as <-.
           rewrite Hg in Hg'. injection Hg' as <-. congruence.
        -- split; discriminate.
    + destruct H as (H & _). eexists. split; [exact H|]. simpl.
      split; [auto|]. split; [|split; [|discriminate]].
      * split; [discriminate|].
        intros (deck' & cards' & E & Hg' & _). injection E as <-.
        rewrite Hg in Hg'. discriminate.
      * split; discriminate.
  - eexists. rewrite H. simpl. split; [reflexivity|].
    split; [auto|]. split; [|split; [|reflexivity]].
    + split; [discriminate|]. intros (deck & cards & E & _). discriminate.
    + split; reflexivity.
  - eexists. split; [exact H|]. simpl.
    split; [auto|]. split; [|split; [|discriminate]].
    + split; [discriminate|]. intros (deck & cards & E & _). discriminate.
    + split; discriminate.
Qed.

(** X13. When the pipeline answers no card, or rejects, the generate
    route answers 500 without a single insert: the fallback turns the
    empty answer into an error before the loop. *)
Theorem generate_route_inserts_nothing_on_empty o deck u d validated w :
  o_generate o (Decks.pipelineInput deck validated) = Some []
  \/ o_generate o (Decks.pipelineInput deck validated) = None ->
  fst (Decks.handleGenerateCards o (Ok (Some deck)) u d validated w)
  = Ok {| Decks.status := 500; Decks.body := Decks.Alert Decks.failure_alert |}
  /\ count is_insert
       (trace (exec (Decks.handleGenerateCards o (Ok (Some deck)) u d validated)
                 w))
     = count is_insert (trace w).
Proof.
  intros Hg.
  pose proof (handleGenerateCards_cases o (Ok (Some deck)) u d validated w) as H.
  simpl in H. destruct Hg as [Hg | Hg]; rewrite Hg in H; exact H.
Qed.

Lemma generate_route_inserts_nothing_on_empty_witness :
  fst (Decks.handleGenerateCards empty_oracle (Ok (Some sample_deck))
         "user-1" "deck-1" sample_validated ready_world)
  = Ok {| Decks.status := 500; Decks.body := Decks.Alert Decks.failure_alert |}
  /\ count is_insert
       (trace (exec (Decks.handleGenerateCards empty_oracle
                       (Ok (Some sample_deck)) "user-1" "deck-1"
                       sample_validated) ready_world))
     = count is_insert (trace ready_world).
Proof.
  apply (generate_route_inserts_nothing_on_empty empty_oracle sample_deck
           "user-1" "deck-1" sample_validated ready_world).
  left. reflexivity.
Defined.

(** ** Before the pipeline has answered *)

(** X14. The handler inserts nothing before the pipeline has answered:
    when the body does not parse or the pipeline rejects, it has made no
    insert and drawn no identifier. *)
Theorem no_insert_without_pipeline_answer o m w e :
  raises o m e -> e <> InsertError ->
  exists evs,
    trace (exec (handleMessage o m) w) = trace w ++ evs
    /\ count is_insert evs = 0
    /\ Forall (fun ev => match ev with EvUuid _ => False | _ => True end) evs.
Proof.
  intros Hr He. destruct (channel w) as [ch|] eqn:Hch.
  - unfold exec. rewrite (handleMessage_spec o m w ch Hch). simpl.
    exists (handler_events o m). split; [apply trace_apply_events|].
    unfold handler_events, failure_events.
    destruct Hr as [text Hb | p Hb Hg | p cards k Hb Hg Hk Hi];
      [rewrite Hb | rewrite Hb, Hg | contradiction];
      cbn [closed_in_catch]; destruct (o_channel_closes o);
      split; try reflexivity; repeat constructor.
  - exists []. unfold exec. rewrite (handleMessage_returns_at_once o m w Hch).
    simpl. rewrite app_nil_r. repeat split. constructor.
Qed.

Lemma no_insert_without_pipeline_answer_witness :
  exists evs,
    trace (exec (handleMessage sample_oracle garbled_message) ready_world)
    = trace ready_world ++ evs
    /\ count is_insert evs = 0
    /\ Forall (fun ev => match ev with EvUuid _ => False | _ => True end) evs.
Proof.
  apply (no_insert_without_pipeline_answer sample_oracle garbled_message
           ready_world JsonSyntaxError).
  - apply (raises_parse _ _ "not json"). reflexivity.
  - discriminate.
Defined.

(** ** Terminal states *)

Lemma synced_extend w w' evs :
  trace w' = trace w ++ evs ->
  (forall j, status_log j evs = [] -> statuses w' !! j = statuses w !! j) ->
  (forall j, status_log j evs <> [] ->
     state <$> (statuses w' !! j) = last (status_log j evs)) ->
  synced w -> synced w'.
Proof.
  intros Htr Hsame Hnew Hs j. rewrite Htr, status_log_app.
  destruct (status_log j evs) as [|t l] eqn:E.
  - rewrite app_nil_r, (Hsame j E). apply Hs.
  - rewrite (Hnew j) by (rewrite E; discriminate). rewrite E.
    rewrite last_app. simpl. destruct (last (t :: l)) eqn:El; [reflexivity|].
    apply last_None in El. discriminate.
Qed.

Lemma status_log_invalid j o m text :
  msg_content m = BodyInvalid text ->
  status_log j (handler_events o m)
  = if decide (message_key m = j) then [failed] else [].
Proof.
  intros Hb. unfold handler_events, message_key, payload_of. rewrite Hb.
  unfold status_log. simpl.
  destruct (decide (default "unknown" (msg_messageId m) = j)); reflexivity.
Qed.

Lemma handleMessage_synced o m w : synced w -> synced (exec (handleMessage o m) w).
Proof.
  intros Hs. destruct (channel w) as [ch|] eqn:Hch.
  2:{ unfold exec. rewrite (handleMessage_returns_at_once o m w Hch). exact Hs. }
  unfold exec. rewrite (handleMessage_spec o m w ch Hch). simpl.
  apply (synced_extend w _ (handler_events o m));
    [apply trace_apply_events | | | exact Hs].
  - intros j Hj. apply statuses_untouched, Hj.
  - intros j Hj.
    assert (message_key m = j) as <-.
    { destruct (msg_content m) as [p|text] eqn:Hb.
      - rewrite (status_log_handler j o m p Hb) in Hj.
        unfold message_key, payload_of. rewrite Hb. simpl.
        destruct (decide (jobId p = j)); [assumption | contradiction].
      - rewrite (status_log_invalid j o m text Hb) in Hj.
        destruct (decide (message_key m = j)); [assumption | contradiction]. }
    destruct (handler_events_shape o m) as (pre & -> & _).
    pose proof (final_status_read o m w pre (last_call o m)
                  (last_call_not_a_write o m)) as Hread.
    unfold getStatus in Hread. rewrite Hread.
    rewrite status_log_app, status_log_set, status_log_skip
      by apply last_call_not_a_write.
    destruct (decide (message_key m = message_key m)); [|contradiction].
    change (status_log (message_key m) []) with (@nil StateTag).
    rewrite app_nil_r. symmetry. apply last_snoc.
Qed.

Lemma run_call_synced c w : synced w -> synced (run_call c w).
Proof.
  intros Hs. destruct c as [o | o input | o | o i | o]; simpl.
  - destruct (init_frame o w) as (Htr & Hst & _).
    apply (synced_extend w _ _ Htr); try exact Hs.
    + intros j _. rewrite Hst. reflexivity.
    + intros j Hj. exfalso. apply Hj.
      apply status_log_setup, setup_events_setup.
  - destruct (enqueue_spec o input w) as (Htr & H).
    apply (synced_extend w _ _ Htr); try exact Hs.
    + intros j Hj. rewrite status_log_enqueue in Hj.
      destruct (channel_ready o w).
      * destruct H as (-> & _).
        destruct (decide (o_uuid o 0 = j)); [discriminate|].
        apply lookup_insert_ne. assumption.
      * destruct H as (-> & _). reflexivity.
    + intros j Hj. rewrite status_log_enqueue in *.
      destruct (channel_ready o w); [|contradiction].
      destruct H as (-> & _).
      destruct (decide (o_uuid o 0 = j)) as [->|]; [|contradiction].
      rewrite lookup_insert_eq. reflexivity.
  - destruct (startConsumer_frame o w) as (Htr & Hst & _).
    apply (synced_extend w _ _ Htr); try exact Hs.
    + intros j _. rewrite Hst. reflexivity.
    + intros j Hj. exfalso. apply Hj.
      apply status_log_setup, consumer_events_setup.
  - destruct (broker_queue w !! i) as [m|]; [|exact Hs].
    destruct (subscribed w); [|exact Hs].
    apply handleMessage_synced. exact Hs.
  - exact Hs.
Qed.

Lemma terminal_not_touched c w j s :
  jobs_ok w -> synced w ->
  match c with
  | CallEnqueue o _ => ~ In (EvUuid (o_uuid o 0)) (trace w)
  | _ => True
  end ->
  getStatus j w = Some s ->
  state s = completed \/ state s = failed ->
  call_key c w <> Some j.
Proof.
  intros Hok Hs Hfresh Hget Hterm.
  pose proof (Hs j) as Hj. unfold getStatus in Hget. rewrite Hget in Hj.
  simpl in Hj.
  destruct c as [o | o input | o | o i | o]; simpl; try discriminate.
  - intros E. injection E as E. apply Hfresh. rewrite E.
    apply (keys_generated w Hok). intros Hnil. rewrite Hnil in Hj.
    discriminate.
  - destruct (broker_queue w !! i) as [m|] eqn:Hi; [|discriminate].
    simpl. intros E. injection E as E.
    assert (m ∈ broker_queue w) as Hm by (eapply list_elem_of_lookup_2, Hi).
    destruct (pending_queued w Hok m Hm) as (p & Hb & Hl & _).
    unfold message_key, payload_of in E. rewrite Hb in E. simpl in E.
    rewrite E in Hl. rewrite Hl in Hj. simpl in Hj.
    destruct Hterm as [Ht | Ht]; rewrite Ht in Hj; discriminate.
Qed.

Lemma terminal_kept calls : forall w j s,
  jobs_ok w -> synced w -> unique_ids calls w ->
  getStatus j w = Some s ->
  state s = completed \/ state s = failed ->
  getStatus j (run_calls calls w) = Some s.
Proof.
  induction calls as [|c calls IH]; intros w j s Hok Hs Hu Hget Hterm;
    [exact Hget|].
  destruct Hu as (Hc & Hu). simpl. apply IH; try assumption.
  - apply run_call_jobs_ok; assumption.
  - apply run_call_synced, Hs.
  - rewrite (run_call_other_keys c w j); [exact Hget|].
    apply (terminal_not_touched c w j s); assumption.
Qed.

Lemma run_calls_synced calls : forall w, synced w -> synced (run_calls calls w).
Proof.
  induction calls as [|c calls IH]; intros w H; [exact H|].
  simpl. apply IH, run_call_synced, H.
Qed.

Lemma initial_synced : synced initial_world.
Proof. intros j. simpl. rewrite lookup_empty. reflexivity. Qed.

(** X15. A terminal status is final: in a run on a fresh process in which
    the generator never repeats a job identifier, once [getStatus] has
    answered completed or failed for a job it answers the very same status
    after any further calls. *)
Theorem terminal_status_is_final before later j s :
  unique_ids (before ++ later) initial_world ->
  getStatus j (run_calls before initial_world) = Some s ->
  state s = completed \/ state s = failed ->
  getStatus j (run_calls later (run_calls before initial_world)) = Some s.
Proof.
  intros Hu Hget Hterm.
  destruct (unique_ids_app before later initial_world Hu) as (Hu1 & Hu2).
  apply terminal_kept; try assumption.
  - apply run_calls_jobs_ok; [exact Hu1 | apply initial_jobs_ok].
  - apply run_calls_synced, initial_synced.
Qed.

Lemma terminal_status_is_final_witness :
  getStatus "job-1"
    (run_calls [CallEnqueue second_submit_oracle sample_input;
                Deliver empty_oracle 0]
       (run_calls [CallEnqueue submit_oracle sample_input;
                   Deliver sample_oracle 0] initial_world))
  = Some (Completed completed_message (map summary sample_cards)).
Proof.
  apply (terminal_status_is_final
           [CallEnqueue submit_oracle sample_input; Deliver sample_oracle 0]
           [CallEnqueue second_submit_oracle sample_input;
            Deliver empty_oracle 0]
           "job-1" (Completed completed_message (map summary sample_cards))).
  - vm_compute. repeat split; intros H;
      repeat (destruct H as [H | H]; [discriminate|]); destruct H.
  - vm_compute. reflexivity.
  - left. reflexivity.
Defined.
